(** * The thumbnail conversion service of allmark

    A shallow embedding of [services/thumbnail/service.go]: the
    construction of the service, the pass over the repository
    ([createThumbnails]), the unit of work ([createThumbnail]) and the two
    index operations ([isInIndex], [addToIndex]).

    The service mutates its index, creates files in the thumbnail folder,
    writes to the log and sleeps.  A call is modelled as a function from the
    receiver and the thumbnail folder's content to an [Outcome]: how the call
    ended (a normal return or a Go run-time panic), the receiver and the
    folder afterwards, and the effects of the call in the order they
    happened. *)

From stdpp Require Import gmap strings list fin_maps pretty.

Open Scope string_scope.
Open Scope list_scope.

(** ** Values shared with the collaborators *)

(** A Go [error] value that is not nil, by its message. *)
Abbreviation Error := string (only parsing).

(** [(T, error)] as the collaborators return it: the value, or an error that
    is not nil. *)
Inductive result (A : Type) : Type :=
| Ok (a : A)
| Err (e : Error).
Arguments Ok {A} a.
Arguments Err {A} e.

(** [dataaccess]: what the service reads of a repository.  [MimeType] and
    [Data] hold what the method of that name answers: [Data] passes the
    content of the file to its consumer, or fails before it calls it. *)
Module dataaccess.

Record File : Type := {
  Id : string;
  Parent : string;
  Route : string;
  MimeType : result string;
  Data : result string
}.

Record Item : Type := { Files : list File }.

Record Repository : Type := { Items : list Item }.

End dataaccess.

Abbreviation File := dataaccess.File.
Abbreviation Repository := dataaccess.Repository.

(** ** The index *)

(** The bounds are of the Go type [uint].  The service passes them on as
    they are, prints them and compares them; it computes nothing with them,
    so no wrap-around comes into play. *)
Record ThumbDimension : Type := { MaxWidth : N; MaxHeight : N }.

Record Thumb : Type := {
  Route : string;
  Path : string;
  Dimensions : ThumbDimension
}.

(** Modelled from the spec: [ThumbDimension.String], declared in another
    file of the package.  Section 3 gives the
    rendering of a dimension pair as the inner key of the index, in the form
    of its example ["200x0"]. *)
Definition ThumbDimension_String (d : ThumbDimension) : string :=
  pretty (MaxWidth d) +:+ "x" +:+ pretty (MaxHeight d).

(** Modelled from the spec: [newThumb], of the same file.  A record holds the
    source route, the generated file name and the dimension pair. *)
Definition newThumb (route path : string) (maxWidth maxHeight : N) : Thumb :=
  {| Route := route;
     Path := path;
     Dimensions := {| MaxWidth := maxWidth; MaxHeight := maxHeight |} |}.

(** Modelled from the spec: the types [Thumbs] and [Index], of the same
    file: a map from the source route to a map from the rendered dimensions
    to the record. *)
Abbreviation Thumbs := (gmap string Thumb) (only parsing).
Abbreviation Index := (gmap string (gmap string Thumb)) (only parsing).

(** ** The service *)

Record ConversionService : Type := {
  repository : Repository;
  isRunning : bool;
  indexFilePath : string;
  index : Index;
  thumbnailFolder : string
}.

Definition set_index (conversion : ConversionService) (i : Index)
  : ConversionService :=
  {| repository := repository conversion;
     isRunning := isRunning conversion;
     indexFilePath := indexFilePath conversion;
     index := i;
     thumbnailFolder := thumbnailFolder conversion |}.

Definition isInIndex (conversion : ConversionService) (thumb : Thumb) : bool :=
  match index conversion !! Route thumb with
  | None => false
  | Some thumbs =>
      match thumbs !! ThumbDimension_String (Dimensions thumb) with
      | Some _ => true
      | None => false
      end
  end.

Definition addToIndex (conversion : ConversionService) (thumb : Thumb)
  : ConversionService :=
  let thumbs :=
    match index conversion !! Route thumb with
    | Some thumbs => thumbs
    | None => ∅
    end in
  let thumbs := <[ThumbDimension_String (Dimensions thumb) := thumb]> thumbs in
  set_index conversion (<[Route thumb := thumbs]> (index conversion)).

(** ** Effects and outcomes *)

Inductive Level : Type := Debug | Info | Warn.

(** What a call does to the world outside the service, one event per call of
    a collaborator.  The events of [fsutil.OpenFile] and
    [imageconversion.Resize] also name the file and the thumbnail on whose
    behalf [createThumbnail] made the call. *)
Inductive Event : Type :=
| EvLog (level : Level) (format : string)
| EvOpenFile (file : File) (thumb : Thumb) (filePath : string) (ok : bool)
| EvResize (file : File) (thumb : Thumb) (ok : bool)
| EvClose (filePath : string)
| EvSleep (seconds : N).

(** A call returns to its caller, or a run-time panic unwinds it. *)
Inductive Exit : Type := Returns | Panics.

Record Outcome : Type := {
  oExit : Exit;
  oConversion : ConversionService;
  oDisk : gset string;
  oEvents : list Event
}.

(** A method of the service, applied to its arguments. *)
Abbreviation Action := (ConversionService → gset string → Outcome) (only parsing).

Definition returns (events : list Event) : Action :=
  λ conversion disk,
    {| oExit := Returns; oConversion := conversion; oDisk := disk;
       oEvents := events |}.

Definition panics (events : list Event) : Action :=
  λ conversion disk,
    {| oExit := Panics; oConversion := conversion; oDisk := disk;
       oEvents := events |}.

(** Statement after statement: a panic of the first skips the second. *)
Definition andThen (a b : Action) : Action :=
  λ conversion disk,
    let o := a conversion disk in
    match oExit o with
    | Panics => o
    | Returns =>
        let o' := b (oConversion o) (oDisk o) in
        {| oExit := oExit o'; oConversion := oConversion o';
           oDisk := oDisk o'; oEvents := oEvents o ++ oEvents o' |}
    end.

(** [for _, x := range l { body }] *)
Fixpoint forRange {A : Type} (l : list A) (body : A → Action) : Action :=
  match l with
  | [] => returns []
  | x :: l' => andThen (body x) (forRange l' body)
  end.

(** [time.Sleep(n * time.Second)] *)
Definition Sleep (seconds : N) : Action := returns [EvSleep seconds].

(** The state of the index file when the service is constructed. *)
Inductive IndexFile : Type :=
| IndexFileMissing
| IndexFileUnreadable
| IndexFileCorrupt
| IndexFileHolds (stored : Index).

(** What [NewConversionService] starts and registers. *)
Inductive Startup : Type :=
| StLog (level : Level) (format : string)
| StGo_startConversion
| StRegister_stop
| StRegister_saveIndex.

(** ** Reading outcomes *)

(** The record of the index at a source route and a rendered dimension. *)
Definition lookupThumb (i : Index) (route key : string) : option Thumb :=
  i !! route ≫= λ thumbs, thumbs !! key.

(** The file and the thumbnail on whose behalf a collaborator was called. *)
Definition eventFile (e : Event) : option File :=
  match e with
  | EvOpenFile file _ _ _ | EvResize file _ _ => Some file
  | _ => None
  end.

Definition eventThumb (e : Event) : option Thumb :=
  match e with
  | EvOpenFile _ thumb _ _ | EvResize _ thumb _ => Some thumb
  | _ => None
  end.

Definition isResize (e : Event) : bool :=
  match e with
  | EvResize _ _ _ => true
  | _ => false
  end.

(** How often [imageconversion.Resize] was invoked. *)
Fixpoint resizeInvocations (events : list Event) : nat :=
  match events with
  | [] => 0
  | e :: events' =>
      (if isResize e then 1 else 0) + resizeInvocations events'
  end.

(** The delays of the calls of [time.Sleep], in seconds. *)
Fixpoint sleepsOf (events : list Event) : list N :=
  match events with
  | [] => []
  | EvSleep seconds :: events' => seconds :: sleepsOf events'
  | _ :: events' => sleepsOf events'
  end.

(** How often [imageconversion.Resize] returned nil. *)
Fixpoint resizedOk (events : list Event) : nat :=
  match events with
  | [] => 0
  | EvResize _ _ true :: events' => S (resizedOk events')
  | _ :: events' => resizedOk events'
  end.

(** How often [fsutil.OpenFile] opened a target, and how often a target was
    closed. *)
Fixpoint openedOk (events : list Event) : nat :=
  match events with
  | [] => 0
  | EvOpenFile _ _ _ true :: events' => S (openedOk events')
  | _ :: events' => openedOk events'
  end.

Fixpoint closedTargets (events : list Event) : nat :=
  match events with
  | [] => 0
  | EvClose _ :: events' => S (closedTargets events')
  | _ :: events' => closedTargets events'
  end.

(** How often [fsutil.OpenFile] was called. *)
Fixpoint openCalls (events : list Event) : nat :=
  match events with
  | [] => 0
  | EvOpenFile _ _ _ _ :: events' => S (openCalls events')
  | _ :: events' => openCalls events'
  end.

(** Files are compared by what the service reads of them. *)
#[global] Instance result_eq_dec {A : Type} `{EqDecision A} :
  EqDecision (result A).
Proof. solve_decision. Defined.

#[global] Instance File_eq_dec : EqDecision File.
Proof. solve_decision. Defined.

(** How often [fsutil.OpenFile] and [imageconversion.Resize] were called on
    behalf of one file. *)
Fixpoint openCallsFor (file : File) (events : list Event) : nat :=
  match events with
  | [] => 0
  | EvOpenFile f _ _ _ :: events' =>
      (if bool_decide (f = file) then 1 else 0) + openCallsFor file events'
  | _ :: events' => openCallsFor file events'
  end.

Fixpoint resizesFor (file : File) (events : list Event) : nat :=
  match events with
  | [] => 0
  | EvResize f _ _ :: events' =>
      (if bool_decide (f = file) then 1 else 0) + resizesFor file events'
  | _ :: events' => resizesFor file events'
  end.

(** How often a list of files names one file. *)
Definition occurrences (file : File) (files : list File) : nat :=
  length (filter (λ f, f = file) files).

(** The number of records of an index, over all routes. *)
Definition recordCount (i : Index) : nat :=
  map_fold (λ _ (thumbs : gmap string Thumb) n, size thumbs + n) 0 i.

(** The files of a repository, in the order of the two loops of a pass. *)
Definition filesOf (repository : Repository) : list File :=
  item ← dataaccess.Items repository; dataaccess.Files item.

(** The character that separates the parts of a file name. *)
Definition dash : Ascii.ascii :=
  Eval cbv in match "-" with String c _ => c | EmptyString => Ascii.zero end.

(** A character occurs in a string. *)
Fixpoint occurs (c : Ascii.ascii) (s : string) : Prop :=
  match s with
  | EmptyString => False
  | String c' s' => c = c' ∨ occurs c s'
  end.

(** Two thumbnails of one identity: the same full file route and the same
    dimension pair. *)
Definition sameIdentity (t t' : Thumb) : Prop :=
  Route t = Route t' ∧ Dimensions t = Dimensions t'.

(** [a] keeps [I] and all its events are in [E], however it ends. *)
Definition preserves (I : ConversionService → gset string → Prop)
    (E : Event → Prop) (a : Action) : Prop :=
  ∀ conversion disk,
    I conversion disk →
    I (oConversion (a conversion disk)) (oDisk (a conversion disk))
    ∧ Forall E (oEvents (a conversion disk)).

(** [a] keeps [J], a property of the service, the folder and the events so
    far, however it ends. *)
Definition keeps (J : ConversionService → gset string → list Event → Prop)
    (a : Action) : Prop :=
  ∀ conversion disk events,
    J conversion disk events →
    J (oConversion (a conversion disk)) (oDisk (a conversion disk))
      (events ++ oEvents (a conversion disk)).

(** The service is as before, with an index that has grown. *)
Definition extends (conversion conversion' : ConversionService) : Prop :=
  repository conversion' = repository conversion
  ∧ thumbnailFolder conversion' = thumbnailFolder conversion
  ∧ ∀ thumb, isInIndex conversion thumb = true →
             isInIndex conversion' thumb = true.

(** Every record of the index is filed under its own route and its own
    rendered dimensions. *)
Definition wellFormed (i : Index) : Prop :=
  ∀ route key t,
    lookupThumb i route key = Some t →
    Route t = route ∧ ThumbDimension_String (Dimensions t) = key.

(** The records, the other fields of the service and the files that a call
    keeps. *)
Definition kept (conversion0 : ConversionService) (disk0 : gset string)
    (conversion : ConversionService) (disk : gset string) : Prop :=
  (∀ route key t,
     lookupThumb (index conversion0) route key = Some t →
     lookupThumb (index conversion) route key = Some t)
  ∧ repository conversion = repository conversion0
  ∧ isRunning conversion = isRunning conversion0
  ∧ indexFilePath conversion = indexFilePath conversion0
  ∧ thumbnailFolder conversion = thumbnailFolder conversion0
  ∧ disk0 ⊆ disk.

(** The collaborators of the service, from other packages:
    [imageconversion], [route], [fsutil] and [filepath].  They answer by
    their arguments alone. *)
Record Collaborators : Type := {
  MimeTypeIsSupported : string → bool;
  GetFileExtensionFromMimeType : string → string;
  (** [route.Combine]: the value of the combined route, or an error *)
  Combine : string → string → result string;
  (** [filepath.Join] *)
  Join : string → string → string;
  (** [fsutil.OpenFile]: whether the file at the path can be opened; a file
      that is opened exists in the folder afterwards *)
  OpenFile : string → bool;
  (** [fsutil.CreateDirectory] *)
  CreateDirectory : string → bool;
  (** [imageconversion.Resize]: nil, or the error *)
  Resize : string → string → N → N → option Error;
  (** the index file found at a path *)
  IndexFileAt : string → IndexFile
}.

Section Service.

Variable env : Collaborators.

(** Modelled from the spec: [loadIndex], declared in another file of the
    package.  Section 4.2 and the tolerant load of section 8: a file that is
    missing, unreadable or does not deserialize gives an empty index
    together with an error. *)
Definition loadIndex (path : string) : Index * option Error :=
  match IndexFileAt env path with
  | IndexFileHolds stored => (stored, None)
  | IndexFileMissing => (∅, Some "index file does not exist")
  | IndexFileUnreadable => (∅, Some "index file cannot be read")
  | IndexFileCorrupt => (∅, Some "index file cannot be deserialized")
  end.

(** [fmt.Sprintf("%s-%v-%v.%s", id, maxWidth, maxHeight, fileExtension)]:
    [%v] prints a [uint] in decimal. *)
Definition Sprintf_filename (id : string) (maxWidth maxHeight : N)
    (fileExtension : string) : string :=
  id +:+ "-" +:+ pretty maxWidth +:+ "-" +:+ pretty maxHeight +:+ "."
     +:+ fileExtension.

(** [file.Data(func(content) error { return Resize(content, ..., target) })]:
    the error it returns, and the call of [Resize] if it came to it. *)
Definition convert (file : File) (thumb : Thumb) (mimeType : string)
    (maxWidth maxHeight : N) : option Error * list Event :=
  match dataaccess.Data file with
  | Err e => (Some e, [])
  | Ok content =>
      match Resize env content mimeType maxWidth maxHeight with
      | Some e => (Some e, [EvResize file thumb false])
      | None => (None, [EvResize file thumb true])
      end
  end.

Definition createThumbnail (file : File) (maxWidth maxHeight : N) : Action :=
  λ conversion disk,
    (* get the mime type *)
    match dataaccess.MimeType file with
    | Err _ =>
        returns [EvLog Warn "Unable to detect mime type for file. Error: %s"]
          conversion disk
    | Ok mimeType =>
    (* check the mime type *)
    if negb (MimeTypeIsSupported env mimeType) then
      returns [EvLog Debug "The mime-type %q is currently not supported."]
        conversion disk
    else
    (* determine the file name *)
    let fileExtension := GetFileExtensionFromMimeType env mimeType in
    let filename :=
      Sprintf_filename (dataaccess.Id file) maxWidth maxHeight fileExtension in
    (* assemble the full file route *)
    match Combine env (dataaccess.Parent file) (dataaccess.Route file) with
    | Err _ =>
        returns [EvLog Warn "Unable to combine routes %q and %q."]
          conversion disk
    | Ok fullFileRoute =>
    let thumb := newThumb fullFileRoute filename maxWidth maxHeight in
    (* check the index *)
    if isInIndex conversion thumb then
      returns [EvLog Debug "Thumb %q already available in the index"]
        conversion disk
    else
    (* determine the file path *)
    let filePath := Join env (thumbnailFolder conversion) filename in
    (* open the target file *)
    if negb (OpenFile env filePath) then
      returns [EvOpenFile file thumb filePath false;
               EvLog Warn "Unable to detect mime type for file. Error: %s"]
        conversion disk
    else
    let disk := {[filePath]} ∪ disk in
    (* convert the image *)
    match convert file thumb mimeType maxWidth maxHeight with
    | (Some _, converted) =>
        (* [err] is the error of [fsutil.OpenFile], which is nil here:
           [err.Error()] is evaluated for the warning and panics with a nil
           dereference; the deferred [target.Close()] runs as the panic
           unwinds the call *)
        panics ([EvOpenFile file thumb filePath true] ++ converted
                  ++ [EvClose filePath])
          conversion disk
    | (None, converted) =>
        (* add to index *)
        returns ([EvOpenFile file thumb filePath true] ++ converted
                   ++ [EvLog Debug "Adding Thumb %q to index";
                       EvClose filePath])
          (addToIndex conversion thumb) disk
    end
    end
    end.

Definition createThumbnails : Action :=
  λ conversion,
    forRange (dataaccess.Items (repository conversion)) (λ item,
      forRange (dataaccess.Files item) (λ file,
        (* create the thumbnail *)
        andThen (createThumbnail file 200 0)
       (andThen (createThumbnail file 400 0)
       (andThen (createThumbnail file 800 0)
        (* wait before processing the next image *)
                (Sleep 5)))))
      conversion.

(** [NewConversionService]: the service, or nil, and what the call logged,
    started and registered. *)
Definition NewConversionService (metaDataFolder : string)
    (repository : Repository) : option ConversionService * list Startup :=
  (* assemble the index file path *)
  let indexFilePath := Join env metaDataFolder "thumbnail.index" in
  let '(index, err) := loadIndex indexFilePath in
  let loaded :=
    match err with
    | Some _ => [StLog Debug "No thumbnail index loaded (%s). Creating a new one."]
    | None => []
    end in
  (* prepare the target folder *)
  let targetFolder := Join env metaDataFolder "thumbnails" in
  let loaded := loaded ++ [StLog Debug "Creating a thumbnail folder at %q."] in
  if negb (CreateDirectory env targetFolder) then
    (None, loaded ++ [StLog Warn "Could not create the thumbnail folder %q"])
  else
    (* create a new conversion service *)
    let conversionService :=
      {| repository := repository;
         isRunning := true;
         indexFilePath := indexFilePath;
         index := index;
         thumbnailFolder := targetFolder |} in
    (Some conversionService,
     loaded ++ [StGo_startConversion; StRegister_stop; StRegister_saveIndex]).

(** ** The pass as a schedule *)

(** The calls the loops of [createThumbnails] make, one after the other. *)
Inductive Step : Type :=
| DoThumbnail (file : File) (maxWidth maxHeight : N)
| DoSleep (seconds : N).

Definition perform (step : Step) : Action :=
  match step with
  | DoThumbnail file maxWidth maxHeight =>
      createThumbnail file maxWidth maxHeight
  | DoSleep seconds => Sleep seconds
  end.

Definition fileSchedule (file : File) : list Step :=
  [DoThumbnail file 200 0; DoThumbnail file 400 0; DoThumbnail file 800 0;
   DoSleep 5].

Definition schedule (repository : Repository) : list Step :=
  item ← dataaccess.Items repository;
  file ← dataaccess.Files item;
  fileSchedule file.

Definition stepSleep (step : Step) : option N :=
  match step with
  | DoSleep seconds => Some seconds
  | DoThumbnail _ _ _ => None
  end.

(** The step is a call of [createThumbnail] on the file. *)
Definition stepFor (file : File) (step : Step) : bool :=
  match step with
  | DoThumbnail f _ _ => bool_decide (f = file)
  | DoSleep _ => false
  end.

(** ** Conditions on a call *)

(** The media type of the file cannot be detected, or is not supported. *)
Definition unsupported (file : File) : Prop :=
  match dataaccess.MimeType file with
  | Err _ => True
  | Ok mimeType => MimeTypeIsSupported env mimeType = false
  end.

(** A call of [createThumbnail] that returns before it opens a target with
    success: the file is skipped, its thumbnail is in the index, or the
    target cannot be opened. *)
Definition settled (conversion : ConversionService) (file : File)
    (maxWidth maxHeight : N) : bool :=
  match dataaccess.MimeType file with
  | Err _ => true
  | Ok mimeType =>
      negb (MimeTypeIsSupported env mimeType)
      || match Combine env (dataaccess.Parent file) (dataaccess.Route file) with
         | Err _ => true
         | Ok fullFileRoute =>
             let filename :=
               Sprintf_filename (dataaccess.Id file) maxWidth maxHeight
                 (GetFileExtensionFromMimeType env mimeType) in
             isInIndex conversion
               (newThumb fullFileRoute filename maxWidth maxHeight)
             || negb (OpenFile env
                        (Join env (thumbnailFolder conversion) filename))
         end
  end.

Definition settledStep (conversion : ConversionService) (step : Step) : bool :=
  match step with
  | DoThumbnail file maxWidth maxHeight =>
      settled conversion file maxWidth maxHeight
  | DoSleep _ => true
  end.

(** The files of the folder and the records of the index, after any number
    of calls: each was there before, or comes with the event of the call
    that made it, on behalf of a file whose media type is supported. *)
Definition accounted (conversion0 : ConversionService) (disk0 : gset string)
    (conversion : ConversionService) (disk : gset string)
    (events : list Event) : Prop :=
  (∀ filePath, filePath ∈ disk →
     filePath ∈ disk0
     ∨ ∃ file thumb, ¬ unsupported file
                     ∧ EvOpenFile file thumb filePath true ∈ events)
  ∧ (∀ route key thumb,
       lookupThumb (index conversion) route key = Some thumb →
       lookupThumb (index conversion0) route key = Some thumb
       ∨ ∃ file, ¬ unsupported file ∧ EvResize file thumb true ∈ events)
  ∧ (∀ e file, e ∈ events → eventFile e = Some file → ¬ unsupported file).

(** What a pass that started on [conversion] has checked when it calls a
    collaborator on behalf of a file and a thumbnail: the file is one of the
    repository, its media type is supported, the route of the thumbnail is
    its full route, the thumbnail is the one of the file at one of the three
    widths, and the index had no record for it. *)
Definition guarded (conversion : ConversionService) (file : File)
    (thumb : Thumb) : Prop :=
  file ∈ filesOf (repository conversion)
  ∧ ∃ mimeType maxWidth,
      dataaccess.MimeType file = Ok mimeType
      ∧ MimeTypeIsSupported env mimeType = true
      ∧ Combine env (dataaccess.Parent file) (dataaccess.Route file)
        = Ok (Route thumb)
      ∧ maxWidth ∈ [200%N; 400%N; 800%N]
      ∧ thumb
        = newThumb (Route thumb)
            (Sprintf_filename (dataaccess.Id file) maxWidth 0
               (GetFileExtensionFromMimeType env mimeType))
            maxWidth 0
      ∧ isInIndex conversion thumb = false.

(** Idempotence of the pass, as claimed for every service: a second pass
    that starts where the first one ended invokes no resize and leaves the
    index as the first pass left it. *)
Definition idempotentPass (conversion : ConversionService)
    (disk : gset string) : Prop :=
  let first := createThumbnails conversion disk in
  let second := createThumbnails (oConversion first) (oDisk first) in
  resizeInvocations (oEvents second) = 0
  ∧ index (oConversion second) = index (oConversion first).

End Service.

(** ** A repository to run the service on *)

Module Demo.

(** JPEG images convert to [jpg] thumbnails; the content ["truncated"]
    does not decode; a file without a route of its own has no full route;
    one target path cannot be opened; no folder can be created under
    ["readonly"]; there is no index file. *)
Definition env : Collaborators :=
  {| MimeTypeIsSupported m := bool_decide (m = "image/jpeg");
     GetFileExtensionFromMimeType m :=
       if bool_decide (m = "image/jpeg") then "jpg" else "bin";
     Combine parent child :=
       if bool_decide (child = EmptyString) then Err "empty route"
       else Ok (parent +:+ "/" +:+ child);
     Join folder name := folder +:+ "/" +:+ name;
     OpenFile path :=
       negb (bool_decide (path = "meta/thumbnails/locked-400-0.jpg"));
     CreateDirectory path :=
       negb (bool_decide (path = "readonly/thumbnails"));
     Resize content _ _ _ :=
       if bool_decide (content = "truncated") then Some "unexpected EOF"
       else None;
     IndexFileAt _ := IndexFileMissing |}.

Definition photo : File :=
  {| dataaccess.Id := "abc123"; dataaccess.Parent := "gallery";
     dataaccess.Route := "photo.jpg";
     dataaccess.MimeType := Ok "image/jpeg";
     dataaccess.Data := Ok "jpeg bytes" |}.

Definition damaged : File :=
  {| dataaccess.Id := "dmg"; dataaccess.Parent := "gallery";
     dataaccess.Route := "damaged.jpg";
     dataaccess.MimeType := Ok "image/jpeg";
     dataaccess.Data := Ok "truncated" |}.

Definition notes : File :=
  {| dataaccess.Id := "notes"; dataaccess.Parent := "gallery";
     dataaccess.Route := "notes.txt";
     dataaccess.MimeType := Ok "text/plain";
     dataaccess.Data := Ok "some text" |}.

Definition unknown : File :=
  {| dataaccess.Id := "unknown"; dataaccess.Parent := "gallery";
     dataaccess.Route := "blob";
     dataaccess.MimeType := Err "cannot read the file header";
     dataaccess.Data := Ok "?" |}.

Definition unrouted : File :=
  {| dataaccess.Id := "unrouted"; dataaccess.Parent := "gallery";
     dataaccess.Route := EmptyString;
     dataaccess.MimeType := Ok "image/jpeg";
     dataaccess.Data := Ok "jpeg bytes" |}.

Definition locked : File :=
  {| dataaccess.Id := "locked"; dataaccess.Parent := "gallery";
     dataaccess.Route := "locked.jpg";
     dataaccess.MimeType := Ok "image/jpeg";
     dataaccess.Data := Ok "jpeg bytes" |}.

Definition repositoryOf (files : list File) : Repository :=
  {| dataaccess.Items := [ {| dataaccess.Files := files |} ] |}.

Definition serviceOn (files : list File) : ConversionService :=
  {| repository := repositoryOf files;
     isRunning := true;
     indexFilePath := "meta/thumbnail.index";
     index := ∅;
     thumbnailFolder := "meta/thumbnails" |}.

Definition photoThumb : Thumb :=
  newThumb "gallery/photo.jpg" "abc123-200-0.jpg" 200 0.

Definition damagedThumb : Thumb :=
  newThumb "gallery/damaged.jpg" "dmg-200-0.jpg" 200 0.

End Demo.


(** * Properties *)

(** ** The index *)

Lemma lookupThumb_addToIndex conversion thumb route key :
  lookupThumb (index (addToIndex conversion thumb)) route key =
  if decide (route = Route thumb
             ∧ key = ThumbDimension_String (Dimensions thumb))
  then Some thumb
  else lookupThumb (index conversion) route key.
Proof.
  unfold lookupThumb, addToIndex; cbn.
  destruct (decide (route = Route thumb)) as [-> | Hroute].
  - rewrite lookup_insert_eq; cbn.
    destruct (decide (key = ThumbDimension_String (Dimensions thumb)))
      as [-> | Hkey].
    + rewrite lookup_insert_eq, decide_True; done.
    + rewrite lookup_insert_ne; [| done].
      rewrite decide_False; [| by intros [? ?]].
      destruct (index conversion !! Route thumb); done.
  - rewrite lookup_insert_ne; [| done].
    rewrite decide_False; [done | by intros [? ?]].
Qed.

Lemma isInIndex_lookupThumb conversion thumb :
  isInIndex conversion thumb =
  bool_decide (is_Some (lookupThumb (index conversion) (Route thumb)
                          (ThumbDimension_String (Dimensions thumb)))).
Proof.
  unfold isInIndex, lookupThumb.
  destruct (index conversion !! Route thumb) as [thumbs |]; cbn; [| done].
  destruct (thumbs !! _); done.
Qed.

Lemma isInIndex_true conversion thumb :
  isInIndex conversion thumb = true ↔
  is_Some (lookupThumb (index conversion) (Route thumb)
             (ThumbDimension_String (Dimensions thumb))).
Proof. rewrite isInIndex_lookupThumb. apply bool_decide_eq_true. Qed.

(** Membership depends on the identity of the thumbnail alone. *)
Lemma isInIndex_sameIdentity conversion t t' :
  sameIdentity t t' → isInIndex conversion t = isInIndex conversion t'.
Proof. intros [Hr Hd]. unfold isInIndex. by rewrite Hr, Hd. Qed.

Lemma isInIndex_addToIndex conversion thumb :
  isInIndex (addToIndex conversion thumb) thumb = true.
Proof.
  apply isInIndex_true. rewrite lookupThumb_addToIndex, decide_True; eauto.
Qed.

(** The index only grows. *)
Lemma isInIndex_addToIndex_mono conversion thumb t :
  isInIndex conversion t = true →
  isInIndex (addToIndex conversion thumb) t = true.
Proof.
  rewrite !isInIndex_true, lookupThumb_addToIndex.
  case_decide; eauto.
Qed.

Lemma thumbnailFolder_addToIndex conversion thumb :
  thumbnailFolder (addToIndex conversion thumb) = thumbnailFolder conversion.
Proof. reflexivity. Qed.

Lemma repository_addToIndex conversion thumb :
  repository (addToIndex conversion thumb) = repository conversion.
Proof. reflexivity. Qed.

(** ** Statements in sequence and loops *)

Lemma resizeInvocations_app events events' :
  resizeInvocations (events ++ events') =
  resizeInvocations events + resizeInvocations events'.
Proof. induction events as [| e events IH]; cbn; [done | rewrite IH; lia]. Qed.

Lemma preserves_returns I E events :
  Forall E events → preserves I E (returns events).
Proof. intros HE conversion disk HI. by split. Qed.

Lemma preserves_andThen I E a b :
  preserves I E a → preserves I E b → preserves I E (andThen a b).
Proof.
  intros Ha Hb conversion disk HI. unfold andThen.
  destruct (Ha conversion disk HI) as [HI' HE].
  destruct (oExit (a conversion disk)); [| done].
  destruct (Hb _ _ HI') as [HI'' HE']. cbn.
  split; [done | by apply Forall_app].
Qed.

Lemma preserves_forRange {A} I E (l : list A) body :
  (∀ x, x ∈ l → preserves I E (body x)) → preserves I E (forRange l body).
Proof.
  induction l as [| x l IH]; intros Hbody; cbn.
  - by apply preserves_returns.
  - apply preserves_andThen.
    + apply Hbody. left.
    + apply IH. intros y Hy. apply Hbody. by right.
Qed.


Lemma andThen_ext a a' b b' conversion disk :
  (∀ c d, a c d = a' c d) → (∀ c d, b c d = b' c d) →
  andThen a b conversion disk = andThen a' b' conversion disk.
Proof. intros Ha Hb. unfold andThen. by rewrite Ha, Hb. Qed.

Lemma andThen_assoc a b k conversion disk :
  andThen (andThen a b) k conversion disk
  = andThen a (andThen b k) conversion disk.
Proof.
  unfold andThen.
  destruct (oExit (a conversion disk)) eqn:Ha; cbn; [| by rewrite Ha].
  destruct (oExit (b _ _)) eqn:Hb; cbn; rewrite ?Hb; cbn;
    [by rewrite app_assoc | done].
Qed.

Lemma forRange_app {A} (l l' : list A) body conversion disk :
  forRange (l ++ l') body conversion disk
  = andThen (forRange l body) (forRange l' body) conversion disk.
Proof.
  revert conversion disk. induction l as [| x l IH]; intros conversion disk.
  - cbn. unfold andThen, returns; cbn. by destruct (forRange l' body _ _).
  - cbn. rewrite andThen_assoc. by apply andThen_ext.
Qed.

(** What the calls of an action add to the events of a sequence. *)
Lemma andThen_returns a b conversion disk :
  oExit (andThen a b conversion disk) = Returns →
  oExit (a conversion disk) = Returns
  ∧ oExit (b (oConversion (a conversion disk)) (oDisk (a conversion disk)))
    = Returns.
Proof.
  unfold andThen. destruct (oExit (a conversion disk)) eqn:Ha; cbn; [done |].
  rewrite Ha. done.
Qed.
Lemma keeps_returns J events' :
  (∀ conversion disk events,
     J conversion disk events → J conversion disk (events ++ events')) →
  keeps J (returns events').
Proof. intros HJ conversion disk events. apply HJ. Qed.

Lemma keeps_andThen J a b : keeps J a → keeps J b → keeps J (andThen a b).
Proof.
  intros Ha Hb conversion disk events HJ. unfold andThen.
  specialize (Ha _ _ _ HJ).
  destruct (oExit (a conversion disk)); [| done].
  specialize (Hb _ _ _ Ha). cbn. by rewrite app_assoc.
Qed.

Lemma keeps_forRange {A} J (l : list A) body :
  (∀ x, x ∈ l → keeps J (body x)) → keeps J (forRange l body).
Proof.
  induction l as [| x l IH]; intros Hbody; cbn.
  - intros conversion disk events HJ; cbn. by rewrite app_nil_r.
  - apply keeps_andThen.
    + apply Hbody. left.
    + apply IH. intros y Hy. apply Hbody. by right.
Qed.

Section Properties.

Variable env : Collaborators.

(** Splits a call of [createThumbnail] into the ways through its body. *)
Ltac createThumbnail_paths :=
  unfold createThumbnail, convert, returns, panics;
  repeat case_match; simplify_eq;
  cbn [oExit oConversion oDisk oEvents app] in *.

Lemma createThumbnail_preserves_cached thumb file maxWidth maxHeight :
  preserves (λ conversion _, isInIndex conversion thumb = true)
    (λ e, ∀ t, eventThumb e = Some t → ¬ sameIdentity t thumb)
    (createThumbnail env file maxWidth maxHeight).
Proof.
  intros conversion disk Hcached.
  createThumbnail_paths.
  all: split; [by auto using isInIndex_addToIndex_mono |].
  all: repeat constructor.
  all: intros t [= <-] Hsame.
  all: apply isInIndex_sameIdentity with (conversion := conversion) in Hsame.
  all: congruence.
Qed.

(** ** The pass runs its schedule *)

Lemma forRange_files_schedule files conversion disk :
  forRange files (λ file,
    andThen (createThumbnail env file 200 0)
   (andThen (createThumbnail env file 400 0)
   (andThen (createThumbnail env file 800 0) (Sleep 5)))) conversion disk
  = forRange (files ≫= fileSchedule) (perform env) conversion disk.
Proof.
  revert conversion disk. induction files as [| file files IH]; [done |].
  intros conversion disk. cbn.
  do 3 (rewrite andThen_assoc; apply andThen_ext; [done |]; intros ? ?).
  apply andThen_ext; [done | apply IH].
Qed.

Lemma createThumbnails_schedule conversion disk :
  createThumbnails env conversion disk
  = forRange (schedule (repository conversion)) (perform env) conversion disk.
Proof.
  unfold createThumbnails, schedule.
  generalize (dataaccess.Items (repository conversion)). intros items.
  revert conversion disk. induction items as [| item items IH]; [done |].
  intros conversion disk. cbn. rewrite forRange_app.
  apply andThen_ext; [apply forRange_files_schedule | apply IH].
Qed.

Lemma preserves_createThumbnails I E :
  (∀ file maxWidth maxHeight,
     preserves I E (createThumbnail env file maxWidth maxHeight)) →
  (∀ seconds, E (EvSleep seconds)) →
  preserves I E (createThumbnails env).
Proof.
  intros Hcall Hsleep conversion disk HI.
  rewrite createThumbnails_schedule.
  apply preserves_forRange; [| done].
  intros [file maxWidth maxHeight | seconds] _; cbn.
  - apply Hcall.
  - apply preserves_returns. by repeat constructor.
Qed.

(** ** Cache hits *)

(** C2.  A thumbnail identity (full file route and dimension pair) that is in
    the index when a pass starts: no event of the pass is a call of
    [Resize] for that identity, and none is a call of [OpenFile] for it. *)
Theorem cache_hit_skip conversion disk thumb :
  isInIndex conversion thumb = true →
  (∀ file t ok,
     sameIdentity t thumb →
     EvResize file t ok ∉ oEvents (createThumbnails env conversion disk))
  ∧ (∀ file t filePath ok,
     sameIdentity t thumb →
     EvOpenFile file t filePath ok
       ∉ oEvents (createThumbnails env conversion disk)).
Proof.
  intros Hcached.
  destruct (preserves_createThumbnails
              (λ conversion _, isInIndex conversion thumb = true)
              (λ e, ∀ t, eventThumb e = Some t → ¬ sameIdentity t thumb))
    with (conversion := conversion) (disk := disk) as [_ Hevents];
    [apply createThumbnail_preserves_cached | done | done |].
  rewrite Forall_forall in Hevents.
  split; intros; intros Hin; by eapply (Hevents _ Hin).
Qed.

(** ** What a pass leaves behind *)

Lemma keeps_createThumbnails J :
  (∀ file maxWidth maxHeight,
     keeps J (createThumbnail env file maxWidth maxHeight)) →
  (∀ seconds, keeps J (Sleep seconds)) →
  keeps J (createThumbnails env).
Proof.
  intros Hcall Hsleep conversion disk events HJ.
  rewrite createThumbnails_schedule.
  apply keeps_forRange; [| done].
  intros [file maxWidth maxHeight | seconds] _; cbn; [apply Hcall | apply Hsleep].
Qed.

Lemma accounted_more conversion0 disk0 conversion disk events events' :
  accounted env conversion0 disk0 conversion disk events →
  (∀ e file, e ∈ events' → eventFile e = Some file → ¬ unsupported env file) →
  accounted env conversion0 disk0 conversion disk (events ++ events').
Proof.
  intros (Hdisk & Hindex & Hfiles) Hfiles'. split_and!.
  - intros ? [? | (? & ? & ? & ?)]%Hdisk; [by left | right].
    eexists _, _. split; [done |]. apply elem_of_app. by left.
  - intros ? ? ? [? | (? & ? & ?)]%Hindex; [by left | right].
    eexists. split; [done |]. apply elem_of_app. by left.
  - intros e file [? | ?]%elem_of_app; eauto.
Qed.

Lemma createThumbnail_accounted conversion0 disk0 file maxWidth maxHeight :
  keeps (accounted env conversion0 disk0)
    (createThumbnail env file maxWidth maxHeight).
Proof.
  intros conversion disk events Hacc.
  assert (∀ mimeType, dataaccess.MimeType file = Ok mimeType →
          negb (MimeTypeIsSupported env mimeType) = false →
          ¬ unsupported env file) as Hsupported.
  { intros mimeType Hmime Hsup. unfold unsupported. rewrite Hmime.
    intros Hno. by rewrite Hno in Hsup. }
  createThumbnail_paths.
  all: try (apply accounted_more; [done |];
            intros ? ? Hin Hf; decompose_list_elem_of; by simplify_eq/=).
  all: try (apply accounted_more; [done |];
            intros ? ? Hin Hf; decompose_list_elem_of; simplify_eq/=;
            by eapply Hsupported).
  all: destruct Hacc as (Hdisk & Hindex & Hfiles); split_and!.
  all: try (intros ? ? Hin Hf; decompose_list_elem_of; simplify_eq/=;
            by eauto).
  all: try (intros filePath [->%elem_of_singleton | Hin]%elem_of_union;
            [right; eexists _, _; split; [by eapply Hsupported |];
             apply elem_of_app; right; left
            | destruct (Hdisk _ Hin) as [? | (? & ? & ? & ?)]; [by left |];
              right; eexists _, _; split; [done |];
              apply elem_of_app; by left]).
  all: try (intros route key thumb Hlook;
            destruct (Hindex _ _ _ Hlook) as [? | (? & ? & ?)]; [by left |];
            right; eexists; split; [done |]; apply elem_of_app; by left).
  intros route key thumb. rewrite lookupThumb_addToIndex.
  case_decide; intros Hlook; simplify_eq.
  - right. eexists. split; [by eapply Hsupported |].
    apply elem_of_app; right. right. left.
  - destruct (Hindex _ _ _ Hlook) as [? | (? & ? & ?)]; [by left |].
    right. eexists. split; [done |]. apply elem_of_app. by left.
Qed.

Lemma createThumbnails_accounted conversion disk :
  accounted env conversion disk
    (oConversion (createThumbnails env conversion disk))
    (oDisk (createThumbnails env conversion disk))
    (oEvents (createThumbnails env conversion disk)).
Proof.
  apply (keeps_createThumbnails (accounted env conversion disk))
    with (events := []).
  - intros. apply createThumbnail_accounted.
  - intros seconds c d events Hacc. cbn. apply accounted_more; [done |].
    intros e f Hin Hf. decompose_list_elem_of. by simplify_eq/=.
  - split_and!; [intros; by left | intros; by left |].
    by intros ? ? ?%elem_of_nil.
Qed.

(** ** Files that are skipped *)

(** C5.  A file whose media type cannot be detected or is not supported:
    every call of [createThumbnail] on it returns with the service and the
    folder as they were, after a line in the log; and in a pass, no call of a
    collaborator is made on its behalf, every file the pass adds to the
    folder was opened on behalf of another file, and every record the pass
    adds to the index was resized on behalf of another file. *)
Theorem unsupported_skip file conversion disk :
  unsupported env file →
  (∀ maxWidth maxHeight c d,
     ∃ level format,
       createThumbnail env file maxWidth maxHeight c d
       = returns [EvLog level format] c d)
  ∧ (∀ e, e ∈ oEvents (createThumbnails env conversion disk) →
          eventFile e ≠ Some file)
  ∧ (∀ filePath,
       filePath ∈ oDisk (createThumbnails env conversion disk) →
       filePath ∈ disk
       ∨ ∃ file' thumb,
           file' ≠ file
           ∧ EvOpenFile file' thumb filePath true
               ∈ oEvents (createThumbnails env conversion disk))
  ∧ (∀ route key thumb,
       lookupThumb (index (oConversion (createThumbnails env conversion disk)))
         route key = Some thumb →
       lookupThumb (index conversion) route key = Some thumb
       ∨ ∃ file',
           file' ≠ file
           ∧ EvResize file' thumb true
               ∈ oEvents (createThumbnails env conversion disk)).
Proof.
  intros Hfile.
  destruct (createThumbnails_accounted conversion disk)
    as (Hdisk & Hindex & Hfiles).
  split_and!.
  - intros maxWidth maxHeight c d. unfold unsupported in Hfile.
    unfold createThumbnail.
    destruct (dataaccess.MimeType file) as [mimeType |]; [| by eauto].
    rewrite Hfile; cbn. by eauto.
  - intros e Hin Hf. by eapply Hfiles.
  - intros filePath [? | (file' & thumb & Hsup & Hin)]%Hdisk; [by left |].
    right. exists file', thumb. split; [congruence | done].
  - intros route key thumb [? | (file' & Hsup & Hin)]%Hindex; [by left |].
    right. exists file'. split; [congruence | done].
Qed.

(** ** The index and the folder only grow *)

Lemma extends_refl conversion : extends conversion conversion.
Proof. by split_and!. Qed.

Lemma extends_trans c c' c'' : extends c c' → extends c' c'' → extends c c''.
Proof.
  intros (Hr & Hf & Hi) (Hr' & Hf' & Hi').
  split_and!; [congruence | congruence | auto].
Qed.

Lemma extends_addToIndex conversion thumb :
  extends conversion (addToIndex conversion thumb).
Proof. split_and!; auto using isInIndex_addToIndex_mono. Qed.

Lemma createThumbnail_grows conversion0 disk0 file maxWidth maxHeight :
  preserves (λ conversion disk, extends conversion0 conversion ∧ disk0 ⊆ disk)
    (λ _, True) (createThumbnail env file maxWidth maxHeight).
Proof.
  intros conversion disk [Hext Hsub].
  createThumbnail_paths.
  all: split; [| by repeat constructor].
  all: split; [| set_solver].
  all: eauto using extends_trans, extends_addToIndex.
Qed.

Lemma createThumbnails_grows conversion disk :
  extends conversion (oConversion (createThumbnails env conversion disk))
  ∧ disk ⊆ oDisk (createThumbnails env conversion disk).
Proof.
  apply (preserves_createThumbnails
           (λ c d, extends conversion c ∧ disk ⊆ d) (λ _, True)).
  - intros. apply createThumbnail_grows.
  - done.
  - split; [apply extends_refl | done].
Qed.

(** ** A call that gets to the conversion *)

Section Converting.

Variables (file : File) (maxWidth maxHeight : N).
Variables (conversion : ConversionService) (disk : gset string).
Variables (mimeType fullFileRoute : string).

Let filename : string :=
  Sprintf_filename (dataaccess.Id file) maxWidth maxHeight
    (GetFileExtensionFromMimeType env mimeType).
Let thumb : Thumb := newThumb fullFileRoute filename maxWidth maxHeight.
Let filePath : string := Join env (thumbnailFolder conversion) filename.
Let key : string := ThumbDimension_String (Dimensions thumb).

Hypothesis Hmime : dataaccess.MimeType file = Ok mimeType.
Hypothesis Hsupported : MimeTypeIsSupported env mimeType = true.
Hypothesis Hroute :
  Combine env (dataaccess.Parent file) (dataaccess.Route file)
  = Ok fullFileRoute.
Hypothesis Hnew : isInIndex conversion thumb = false.
Hypothesis Hopen : OpenFile env filePath = true.

Lemma createThumbnail_converts :
  createThumbnail env file maxWidth maxHeight conversion disk =
  match convert env file thumb mimeType maxWidth maxHeight with
  | (Some _, converted) =>
      panics ([EvOpenFile file thumb filePath true] ++ converted
                ++ [EvClose filePath])
        conversion ({[filePath]} ∪ disk)
  | (None, converted) =>
      returns ([EvOpenFile file thumb filePath true] ++ converted
                 ++ [EvLog Debug "Adding Thumb %q to index";
                     EvClose filePath])
        (addToIndex conversion thumb) ({[filePath]} ∪ disk)
  end.
Proof.
  unfold createThumbnail. rewrite Hmime, Hsupported; cbn. rewrite Hroute.
  fold filename. fold thumb. rewrite Hnew. fold filePath. rewrite Hopen; cbn.
  done.
Qed.



(** C10.  A call that gets to the conversion opens the target before it
    calls [Resize]; the target is a file of the folder when the call ends,
    and after any later pass; and when the conversion returns an error the
    file is there while the index has no record for the identity. *)
Theorem failed_build_leaves_file :
  let o := createThumbnail env file maxWidth maxHeight conversion disk in
  (∃ rest,
     oEvents o
     = EvOpenFile file thumb filePath true
         :: snd (convert env file thumb mimeType maxWidth maxHeight) ++ rest
     ∧ resizeInvocations rest = 0)
  ∧ filePath ∈ oDisk o
  ∧ (∀ conversion',
       filePath ∈ oDisk (createThumbnails env conversion' (oDisk o)))
  ∧ (is_Some (fst (convert env file thumb mimeType maxWidth maxHeight)) →
     filePath ∈ oDisk o
     ∧ isInIndex (oConversion o) thumb = false
     ∧ lookupThumb (index (oConversion o)) (Route thumb) key = None).
Proof.
  cbn zeta. rewrite createThumbnail_converts.
  assert (∀ d, filePath ∈ d →
          ∀ conversion', filePath ∈ oDisk (createThumbnails env conversion' d))
    as Hlater.
  { intros d Hin conversion'. by apply (createThumbnails_grows conversion' d). }
  destruct (convert env file thumb mimeType maxWidth maxHeight)
    as [[e |] converted] eqn:Hconvert; unfold returns, panics;
    cbn [fst snd oExit oConversion oDisk oEvents] in *.
  - split_and!.
    + by eexists.
    + set_solver.
    + apply Hlater. set_solver.
    + intros _. split_and!; [set_solver | done |].
      apply eq_None_not_Some. intros Hsome.
      by rewrite (proj2 (isInIndex_true conversion thumb) Hsome) in Hnew.
  - split_and!.
    + by eexists.
    + set_solver.
    + apply Hlater. set_solver.
    + by intros [? ?].
Qed.

End Converting.

(** ** The name of a thumbnail *)

(** C8.  For a file whose media type is [mimeType], the name is the
    identifier of the file, the two bounds in decimal and the extension of
    the media type, as ["<fileId>-<maxWidth>-<maxHeight>.<ext>"].  A call
    for a supported file with a full route and no record in the index opens
    the target of this name in the thumbnail folder, on behalf of the
    thumbnail with this path; when the target opens, the file of this name
    is in the folder and a [Resize] that is called is called for this
    thumbnail; when the conversion succeeds, the record of the index at the
    route and the dimension is this thumbnail.  A call uses no other name:
    each thumbnail it works on has this path, each target it opens is the
    one of this name, and a record or a file that it adds carries it.  The
    identifier ["abc123"], the bounds 200 and 0 and the extension ["jpg"]
    give ["abc123-200-0.jpg"]. *)
Theorem deterministic_naming file maxWidth maxHeight conversion disk mimeType :
  dataaccess.MimeType file = Ok mimeType →
  let name :=
    dataaccess.Id file +:+ "-" +:+ pretty maxWidth +:+ "-"
      +:+ pretty maxHeight +:+ "."
      +:+ GetFileExtensionFromMimeType env mimeType in
  let filePath := Join env (thumbnailFolder conversion) name in
  let o := createThumbnail env file maxWidth maxHeight conversion disk in
  (∀ fullFileRoute,
     let thumb := newThumb fullFileRoute name maxWidth maxHeight in
     MimeTypeIsSupported env mimeType = true →
     Combine env (dataaccess.Parent file) (dataaccess.Route file)
     = Ok fullFileRoute →
     isInIndex conversion thumb = false →
     Path thumb = name
     ∧ EvOpenFile file thumb filePath (OpenFile env filePath) ∈ oEvents o
     ∧ (OpenFile env filePath = true →
        filePath ∈ oDisk o
        ∧ (∀ content,
             dataaccess.Data file = Ok content →
             EvResize file thumb
               (bool_decide
                  (Resize env content mimeType maxWidth maxHeight = None))
               ∈ oEvents o)
        ∧ (fst (convert env file thumb mimeType maxWidth maxHeight) = None →
           lookupThumb (index (oConversion o)) fullFileRoute
             (ThumbDimension_String (Dimensions thumb)) = Some thumb)))
  ∧ (∀ f t filePath' ok,
       EvOpenFile f t filePath' ok ∈ oEvents o →
       Path t = name ∧ filePath' = filePath)
  ∧ (∀ f t ok, EvResize f t ok ∈ oEvents o → Path t = name)
  ∧ (∀ route key t,
       lookupThumb (index (oConversion o)) route key = Some t →
       lookupThumb (index conversion) route key = Some t ∨ Path t = name)
  ∧ (∀ filePath',
       filePath' ∈ oDisk o → filePath' ∈ disk ∨ filePath' = filePath)
  ∧ Sprintf_filename "abc123" 200 0 "jpg" = "abc123-200-0.jpg".
Proof.
  intros Hmime name filePath o. subst name filePath o.
  split_and!; [| | | | | reflexivity].
  - intros fullFileRoute thumb Hsupported Hroute Hnew. subst thumb.
    split; [done |].
    unfold createThumbnail.
    rewrite Hmime, Hsupported; cbn [negb]. rewrite Hroute.
    unfold Sprintf_filename. rewrite Hnew.
    destruct (OpenFile env _) eqn:Hopen; cbn [negb].
    + unfold convert, returns, panics.
      destruct (dataaccess.Data file) as [content | e] eqn:Hdata;
        [destruct (Resize env content mimeType maxWidth maxHeight)
           as [e |] eqn:Hresize |];
        cbn [oExit oConversion oDisk oEvents app fst snd].
      * split; [by left |]. intros _. split_and!.
        -- apply elem_of_union. left. by apply elem_of_singleton.
        -- intros ? [= <-]. rewrite Hresize. right. left.
        -- done.
      * split; [by left |]. intros _. split_and!.
        -- apply elem_of_union. left. by apply elem_of_singleton.
        -- intros ? [= <-]. rewrite Hresize. right. left.
        -- intros _. by rewrite lookupThumb_addToIndex, decide_True.
      * split; [by left |]. intros _. split_and!.
        -- apply elem_of_union. left. by apply elem_of_singleton.
        -- done.
        -- done.
    + unfold returns; cbn [oEvents]. split; [by left | done].
  - createThumbnail_paths; intros; decompose_list_elem_of; by simplify_eq/=.
  - createThumbnail_paths; intros; decompose_list_elem_of; by simplify_eq/=.
  - createThumbnail_paths; try (intros; by left).
    intros route key t; rewrite lookupThumb_addToIndex.
    case_decide; intros; simplify_eq/=; [by right | by left].
  - createThumbnail_paths; try (intros; by left).
    all: intros ? [->%elem_of_singleton | ?]%elem_of_union;
      [by right | by left].
Qed.

(** ** Construction *)

(** C7.  [NewConversionService] returns nil exactly when the thumbnail
    folder cannot be created.  A service that is returned runs on the index
    that [loadIndex] gave back, whether or not it gave an error with it;
    when the index file is missing, unreadable or corrupt and the folder can
    be created, the service is returned and its index is empty. *)
Theorem construction_fails_iff metaDataFolder repository :
  let targetFolder := Join env metaDataFolder "thumbnails" in
  let indexFilePath := Join env metaDataFolder "thumbnail.index" in
  let constructed := fst (NewConversionService env metaDataFolder repository) in
  (constructed = None ↔ CreateDirectory env targetFolder = false)
  ∧ (∀ conversionService,
       constructed = Some conversionService →
       index conversionService = fst (loadIndex env indexFilePath)
       ∧ thumbnailFolder conversionService = targetFolder
       ∧ isRunning conversionService = true)
  ∧ (CreateDirectory env targetFolder = true →
     (∀ stored, IndexFileAt env indexFilePath ≠ IndexFileHolds stored) →
     is_Some (snd (loadIndex env indexFilePath))
     ∧ ∃ conversionService,
         constructed = Some conversionService
         ∧ index conversionService = ∅).
Proof.
  cbn zeta. unfold NewConversionService.
  destruct (loadIndex env (Join env metaDataFolder "thumbnail.index"))
    as [loaded err] eqn:Hload.
  destruct (CreateDirectory env (Join env metaDataFolder "thumbnails"))
    eqn:Hdir; cbn.
  - split_and!; [done | by intros ? [= <-] |].
    intros _ Hbad. unfold loadIndex in Hload.
    destruct (IndexFileAt env _) as [| | | stored] eqn:Hfile;
      [by simplify_eq; eauto.. |].
    by destruct (Hbad stored).
  - split_and!; [done | done | done].
Qed.

(** ** A second pass *)

Lemma settled_quiet conversion disk file maxWidth maxHeight :
  settled env conversion file maxWidth maxHeight = true →
  ∃ events,
    createThumbnail env file maxWidth maxHeight conversion disk
    = returns events conversion disk
    ∧ resizeInvocations events = 0.
Proof.
  unfold settled. intros Hsettled. createThumbnail_paths.
  all: try (eexists; split; [done | done]).
  all: exfalso; cbn in *.
  all: repeat match goal with
         | H : negb _ = false |- _ => apply negb_false_iff in H
         end.
  all: by repeat match goal with H : _ = _ |- _ => rewrite H in Hsettled end.
Qed.

Lemma createThumbnail_returns_settled conversion disk file maxWidth maxHeight :
  oExit (createThumbnail env file maxWidth maxHeight conversion disk)
  = Returns →
  settled env
    (oConversion (createThumbnail env file maxWidth maxHeight conversion disk))
    file maxWidth maxHeight = true.
Proof.
  unfold settled. createThumbnail_paths; intros Hexit; try done.
  all: repeat match goal with
         | H : negb _ = _ |- _ => rewrite H
         | H : isInIndex _ _ = true |- _ => rewrite H
         end; try done.
  all: cbn.
  - by rewrite orb_true_r.
  - by rewrite isInIndex_addToIndex.
Qed.

Lemma settled_extends conversion conversion' file maxWidth maxHeight :
  extends conversion conversion' →
  settled env conversion file maxWidth maxHeight = true →
  settled env conversion' file maxWidth maxHeight = true.
Proof.
  intros (_ & Hfolder & Hindex). unfold settled.
  repeat case_match; try done.
  rewrite Hfolder.
  intros [? | [Hin%Hindex | ?]%orb_true_iff]%orb_true_iff.
  - by apply orb_true_iff; left.
  - apply orb_true_iff; right. by rewrite Hin.
  - apply orb_true_iff; right. by apply orb_true_iff; right.
Qed.

Lemma perform_grows conversion0 disk0 step :
  preserves (λ conversion disk, extends conversion0 conversion ∧ disk0 ⊆ disk)
    (λ _, True) (perform env step).
Proof.
  destruct step; cbn; [apply createThumbnail_grows |].
  apply preserves_returns. by repeat constructor.
Qed.

Lemma forRange_perform_extends steps conversion disk :
  extends conversion
    (oConversion (forRange steps (perform env) conversion disk)).
Proof.
  apply (preserves_forRange (λ c d, extends conversion c ∧ disk ⊆ d)
           (λ _, True) steps).
  - intros. apply perform_grows.
  - split; [apply extends_refl | done].
Qed.

Lemma settledStep_extends conversion conversion' step :
  extends conversion conversion' →
  settledStep env conversion step = true →
  settledStep env conversion' step = true.
Proof. destruct step; cbn; [apply settled_extends | done]. Qed.

(** After a pass that returned, every call of its schedule is settled. *)
Lemma forRange_returns_settled steps conversion disk :
  oExit (forRange steps (perform env) conversion disk) = Returns →
  ∀ step, step ∈ steps →
    settledStep env
      (oConversion (forRange steps (perform env) conversion disk)) step
    = true.
Proof.
  revert conversion disk.
  induction steps as [| step0 steps IH]; intros conversion disk Hexit step Hin.
  { by apply elem_of_nil in Hin. }
  cbn in Hexit |- *.
  destruct (andThen_returns _ _ _ _ Hexit) as [Hfirst Hrest].
  unfold andThen. rewrite Hfirst; cbn.
  apply elem_of_cons in Hin as [-> | Hin]; [| by apply IH].
  eapply settledStep_extends; [apply forRange_perform_extends |].
  destruct step0; cbn in *; [| done].
  by apply createThumbnail_returns_settled.
Qed.

(** A pass over settled calls returns with the service and the folder as
    they were, and has invoked no resize. *)
Lemma forRange_settled_quiet steps conversion disk :
  (∀ step, step ∈ steps → settledStep env conversion step = true) →
  ∃ events,
    forRange steps (perform env) conversion disk
    = returns events conversion disk
    ∧ resizeInvocations events = 0.
Proof.
  induction steps as [| step steps IH]; intros Hsettled.
  { by exists []. }
  destruct IH as (events' & Hrest & Hnone').
  { intros step' Hin. apply Hsettled. by right. }
  assert (∃ events, perform env step conversion disk
                    = returns events conversion disk
                    ∧ resizeInvocations events = 0)
    as (events & Hfirst & Hnone).
  { specialize (Hsettled step ltac:(left)).
    destruct step; cbn in *; [by apply settled_quiet | by eexists]. }
  exists (events ++ events'). split.
  - cbn. unfold andThen. rewrite Hfirst; cbn. by rewrite Hrest.
  - rewrite resizeInvocations_app. lia.
Qed.

(** C1, amended.  When the first pass returns, a second pass over the same
    repository returns too, has invoked no resize, and leaves the service,
    its index and the folder as the first pass left them. *)
Theorem second_pass_idle conversion disk :
  oExit (createThumbnails env conversion disk) = Returns →
  let first := createThumbnails env conversion disk in
  let second := createThumbnails env (oConversion first) (oDisk first) in
  idempotentPass env conversion disk
  ∧ oExit second = Returns
  ∧ oConversion second = oConversion first
  ∧ oDisk second = oDisk first.
Proof.
  intros Hexit first second. subst first second. unfold idempotentPass.
  destruct (createThumbnails_grows conversion disk) as [(Hrepo & _) _].
  rewrite (createThumbnails_schedule (oConversion _)), Hrepo.
  rewrite createThumbnails_schedule in Hexit |- *.
  destruct (forRange_settled_quiet (schedule (repository conversion))
              (oConversion (forRange (schedule (repository conversion))
                              (perform env) conversion disk))
              (oDisk (forRange (schedule (repository conversion))
                        (perform env) conversion disk)))
    as (events & -> & Hnone).
  { by apply forRange_returns_settled. }
  done.
Qed.

(** ** A pass that returns *)

Lemma sleepsOf_app events events' :
  sleepsOf (events ++ events') = sleepsOf events ++ sleepsOf events'.
Proof.
  induction events as [| [] events IH]; cbn; [done | ..]; by rewrite ?IH.
Qed.

Lemma createThumbnail_sleepsOf file maxWidth maxHeight conversion disk :
  sleepsOf (oEvents (createThumbnail env file maxWidth maxHeight
                       conversion disk)) = [].
Proof. by createThumbnail_paths. Qed.

Lemma forRange_returns_sleepsOf steps conversion disk :
  oExit (forRange steps (perform env) conversion disk) = Returns →
  sleepsOf (oEvents (forRange steps (perform env) conversion disk))
  = omap stepSleep steps.
Proof.
  revert conversion disk.
  induction steps as [| step steps IH]; intros conversion disk Hexit; [done |].
  cbn in Hexit |- *.
  destruct (andThen_returns _ _ _ _ Hexit) as [Hfirst Hrest].
  unfold andThen. rewrite Hfirst; cbn.
  rewrite sleepsOf_app, (IH _ _ Hrest).
  destruct step; cbn; [by rewrite createThumbnail_sleepsOf | done].
Qed.

Lemma schedule_sleeps repository :
  omap stepSleep (schedule repository)
  = (λ _, 5%N) <$> (item ← dataaccess.Items repository;
                    dataaccess.Files item).
Proof.
  unfold schedule.
  induction (dataaccess.Items repository) as [| item items IH]; [done |].
  cbn. rewrite omap_app, fmap_app, IH. f_equal.
  induction (dataaccess.Files item) as [| file files IHfiles]; [done |].
  cbn. by rewrite IHfiles.
Qed.

(** X17.  A pass that returns has slept five seconds once for each file of
    the repository, whatever the calls for the file did. *)
Lemma createThumbnails_returns_sleeps conversion disk :
  oExit (createThumbnails env conversion disk) = Returns →
  sleepsOf (oEvents (createThumbnails env conversion disk))
  = (λ _, 5%N) <$> (item ← dataaccess.Items (repository conversion);
                    dataaccess.Files item).
Proof.
  rewrite createThumbnails_schedule. intros Hexit.
  by rewrite forRange_returns_sleepsOf, schedule_sleeps.
Qed.

(** ** How a call ends *)

(** X16.  A call panics exactly when it gets to the conversion and the
    conversion returns an error; every other call returns. *)
Lemma createThumbnail_panics_iff file maxWidth maxHeight conversion disk :
  oExit (createThumbnail env file maxWidth maxHeight conversion disk) = Panics
  ↔ ∃ mimeType fullFileRoute,
      dataaccess.MimeType file = Ok mimeType
      ∧ MimeTypeIsSupported env mimeType = true
      ∧ Combine env (dataaccess.Parent file) (dataaccess.Route file)
        = Ok fullFileRoute
      ∧ let filename :=
          Sprintf_filename (dataaccess.Id file) maxWidth maxHeight
            (GetFileExtensionFromMimeType env mimeType) in
        let thumb := newThumb fullFileRoute filename maxWidth maxHeight in
        isInIndex conversion thumb = false
        ∧ OpenFile env (Join env (thumbnailFolder conversion) filename) = true
        ∧ is_Some (fst (convert env file thumb mimeType maxWidth maxHeight)).
Proof.
  split.
  - unfold createThumbnail, returns, panics.
    destruct (dataaccess.MimeType file) as [mimeType |]; [| done].
    destruct (MimeTypeIsSupported env mimeType) eqn:Hsup; [| done]; cbn.
    destruct (Combine env _ _) as [fullFileRoute |] eqn:Hroute; [| done].
    destruct (isInIndex _ _) eqn:Hnew; [done |].
    destruct (OpenFile env _) eqn:Hopen; [| done]; cbn.
    destruct (convert _ _ _ _ _ _) as [[e |] converted] eqn:Hconvert;
      [| done].
    intros _. exists mimeType, fullFileRoute. cbn zeta.
    rewrite Hconvert. by eauto 10.
  - intros (mimeType & fullFileRoute & Hmime & Hsup & Hroute & Hnew & Hopen
            & Herr).
    rewrite (createThumbnail_converts _ _ _ _ _ _ _ Hmime Hsup Hroute Hnew Hopen).
    destruct (convert _ _ _ _ _ _) as [[e |] converted]; [done |].
    by destruct Herr.
Qed.

End Properties.

(** * The service on the repository of [Demo] *)

(** C4.  The image [Demo.damaged] has a supported media type, a route, no
    record in the index and a target that opens, and its conversion returns
    an error: the call of [createThumbnail] panics, and so does the pass that
    makes the call. *)
Theorem resize_failure_panics :
  let conversion := Demo.serviceOn [Demo.damaged; Demo.photo] in
  fst (convert Demo.env Demo.damaged Demo.damagedThumb "image/jpeg" 200 0)
  = Some "unexpected EOF"
  ∧ oExit (createThumbnail Demo.env Demo.damaged 200 0 conversion ∅) = Panics
  ∧ oExit (createThumbnails Demo.env conversion ∅) = Panics.
Proof. vm_compute. done. Qed.

(** C6.  The pass over [Demo.damaged] and [Demo.photo] has eight steps on its
    schedule.  It ends in the first of them: the dimensions 400 and 800 of
    the first file are not attempted, the pass does not sleep, and the second
    file is not visited. *)
Theorem pass_stops_at_failure :
  let conversion := Demo.serviceOn [Demo.damaged; Demo.photo] in
  schedule (repository conversion)
  = [DoThumbnail Demo.damaged 200 0; DoThumbnail Demo.damaged 400 0;
     DoThumbnail Demo.damaged 800 0; DoSleep 5;
     DoThumbnail Demo.photo 200 0; DoThumbnail Demo.photo 400 0;
     DoThumbnail Demo.photo 800 0; DoSleep 5]
  ∧ oExit (createThumbnails Demo.env conversion ∅) = Panics
  ∧ oEvents (createThumbnails Demo.env conversion ∅)
    = [EvOpenFile Demo.damaged Demo.damagedThumb
         "meta/thumbnails/dmg-200-0.jpg" true;
       EvResize Demo.damaged Demo.damagedThumb false;
       EvClose "meta/thumbnails/dmg-200-0.jpg"].
Proof. vm_compute. done. Qed.

(** C1, as claimed for every service, fails on [Demo.damaged]: the first
    pass leaves no record for the image, and the second pass invokes the
    resize for it again. *)
Lemma pass_not_idempotent :
  ¬ idempotentPass Demo.env (Demo.serviceOn [Demo.damaged]) ∅.
Proof. unfold idempotentPass. vm_compute. intros [Hnone _]. discriminate. Qed.

(** ** The theorems at work *)

(** After a pass over [Demo.photo] its thumbnail of width 200 is in the
    index, and the next pass neither resizes nor opens a target for it. *)
Lemma cache_hit_skip_witness :
  let conversion :=
    oConversion
      (createThumbnails Demo.env (Demo.serviceOn [Demo.photo]) ∅) in
  isInIndex conversion Demo.photoThumb = true
  ∧ (∀ file t ok,
       sameIdentity t Demo.photoThumb →
       EvResize file t ok ∉ oEvents (createThumbnails Demo.env conversion ∅))
  ∧ (∀ file t filePath ok,
       sameIdentity t Demo.photoThumb →
       EvOpenFile file t filePath ok
         ∉ oEvents (createThumbnails Demo.env conversion ∅)).
Proof.
  intros conversion. split; [vm_compute; reflexivity |].
  apply (cache_hit_skip Demo.env conversion ∅ Demo.photoThumb).
  vm_compute; reflexivity.
Defined.

(** The text file [Demo.notes] next to [Demo.photo]. *)
Lemma unsupported_skip_witness :
  unsupported Demo.env Demo.notes
  ∧ (∀ e,
       e ∈ oEvents (createThumbnails Demo.env
                      (Demo.serviceOn [Demo.photo; Demo.notes]) ∅) →
       eventFile e ≠ Some Demo.notes).
Proof.
  assert (unsupported Demo.env Demo.notes) as Hnotes
    by (vm_compute; reflexivity).
  split; [exact Hnotes |].
  exact (proj1 (proj2 (unsupported_skip Demo.env Demo.notes
                         (Demo.serviceOn [Demo.photo; Demo.notes]) ∅ Hnotes))).
Defined.


(** The failed conversion of [Demo.damaged] leaves its target in the
    folder and no record in the index. *)
Lemma failed_build_leaves_file_witness :
  let conversion := Demo.serviceOn [Demo.damaged] in
  let o := createThumbnail Demo.env Demo.damaged 200 0 conversion ∅ in
  "meta/thumbnails/dmg-200-0.jpg" ∈ oDisk o
  ∧ isInIndex (oConversion o) Demo.damagedThumb = false
  ∧ ∀ conversion',
      "meta/thumbnails/dmg-200-0.jpg"
        ∈ oDisk (createThumbnails Demo.env conversion' (oDisk o)).
Proof.
  intros conversion o.
  pose proof (failed_build_leaves_file Demo.env Demo.damaged 200 0
                conversion ∅ "image/jpeg" "gallery/damaged.jpg"
                eq_refl eq_refl eq_refl eq_refl eq_refl) as Hleft.
  cbn zeta in Hleft. destruct Hleft as (_ & _ & Hlater & Hfailed).
  destruct Hfailed as (Hfile & Hindex & _).
  { exists "unexpected EOF". vm_compute; reflexivity. }
  split_and!; [exact Hfile | exact Hindex | exact Hlater].
Defined.

(** The thumbnail of [Demo.photo], whose identifier is ["abc123"], at the
    width 200 and the height 0: the target that the call opens, the file it
    leaves in the folder, the resize and the record it adds. *)
Lemma deterministic_naming_witness :
  let conversion := Demo.serviceOn [Demo.photo] in
  let o := createThumbnail Demo.env Demo.photo 200 0 conversion ∅ in
  dataaccess.MimeType Demo.photo = Ok "image/jpeg"
  ∧ GetFileExtensionFromMimeType Demo.env "image/jpeg" = "jpg"
  ∧ Path Demo.photoThumb = "abc123-200-0.jpg"
  ∧ EvOpenFile Demo.photo Demo.photoThumb
      "meta/thumbnails/abc123-200-0.jpg" true ∈ oEvents o
  ∧ "meta/thumbnails/abc123-200-0.jpg" ∈ oDisk o
  ∧ EvResize Demo.photo Demo.photoThumb true ∈ oEvents o
  ∧ lookupThumb (index (oConversion o)) "gallery/photo.jpg" "200x0"
    = Some Demo.photoThumb
  ∧ (∀ f t filePath ok,
       EvOpenFile f t filePath ok ∈ oEvents o →
       Path t = "abc123-200-0.jpg"
       ∧ filePath = "meta/thumbnails/abc123-200-0.jpg")
  ∧ (∀ f t ok, EvResize f t ok ∈ oEvents o → Path t = "abc123-200-0.jpg").
Proof.
  intros conversion o.
  pose proof (deterministic_naming Demo.env Demo.photo 200 0 conversion ∅
                "image/jpeg" eq_refl) as Hname.
  cbn zeta in Hname. destruct Hname as (Hdoes & Hopened & Hresized & _).
  destruct (Hdoes "gallery/photo.jpg" eq_refl eq_refl eq_refl)
    as (Hpath & Hopen & Hthen).
  destruct (Hthen eq_refl) as (Hfile & Hresize & Hrecord).
  split_and!;
    [reflexivity | reflexivity | exact Hpath | exact Hopen | exact Hfile
    | exact (Hresize "jpeg bytes" eq_refl) | exact (Hrecord eq_refl)
    | exact Hopened | exact Hresized].
Defined.

(** A metadata folder without an index file, and one under which the
    thumbnail folder cannot be created. *)
Lemma construction_fails_iff_witness :
  (CreateDirectory Demo.env "meta/thumbnails" = true
   ∧ IndexFileAt Demo.env "meta/thumbnail.index" = IndexFileMissing
   ∧ ∃ conversionService,
       fst (NewConversionService Demo.env "meta" (Demo.repositoryOf []))
       = Some conversionService
       ∧ index conversionService = ∅)
  ∧ (CreateDirectory Demo.env "readonly/thumbnails" = false
     ∧ fst (NewConversionService Demo.env "readonly" (Demo.repositoryOf []))
       = None).
Proof.
  split.
  - split_and!; [reflexivity | reflexivity |].
    apply (construction_fails_iff Demo.env "meta" (Demo.repositoryOf []));
      [reflexivity | discriminate].
  - split; [reflexivity |].
    apply (construction_fails_iff Demo.env "readonly" (Demo.repositoryOf [])).
    reflexivity.
Defined.

(** A repository with an image, a text file, a file of unknown type, a file
    without a route and an image whose target of width 400 cannot be
    opened: the first pass returns, and the second pass is idle. *)
Lemma second_pass_idle_witness :
  let conversion :=
    Demo.serviceOn
      [Demo.photo; Demo.notes; Demo.unknown; Demo.unrouted; Demo.locked] in
  let first := createThumbnails Demo.env conversion ∅ in
  let second := createThumbnails Demo.env (oConversion first) (oDisk first) in
  oExit first = Returns
  ∧ resizeInvocations (oEvents first) = 5
  ∧ resizeInvocations (oEvents second) = 0
  ∧ index (oConversion second) = index (oConversion first).
Proof.
  intros conversion first second.
  assert (oExit first = Returns) as Hfirst by (vm_compute; reflexivity).
  destruct (second_pass_idle Demo.env conversion ∅ Hfirst)
    as ([Hnone Hindex] & _).
  split_and!; [exact Hfirst | vm_compute; reflexivity | exact Hnone
              | exact Hindex].
Defined.

(** * More on the index *)

(** X1.  After [addToIndex] of a thumbnail, [isInIndex] answers true for a
    thumbnail exactly when it did before or the thumbnail has the route and
    the rendered dimensions of the one that was added. *)
Theorem addToIndex_isInIndex conversion thumb t :
  isInIndex (addToIndex conversion thumb) t = true
  ↔ isInIndex conversion t = true
    ∨ (Route t = Route thumb
       ∧ ThumbDimension_String (Dimensions t)
         = ThumbDimension_String (Dimensions thumb)).
Proof.
  rewrite !isInIndex_true, lookupThumb_addToIndex.
  case_decide as Hslot; split.
  - by right.
  - by eauto.
  - by left.
  - by intros [? | ?].
Qed.

(** X2.  A second [addToIndex] at the route and the rendered dimensions of
    the first replaces its record: the index is as if the first had not
    happened. *)
Theorem addToIndex_overwrite conversion thumb thumb' :
  Route thumb' = Route thumb →
  ThumbDimension_String (Dimensions thumb')
  = ThumbDimension_String (Dimensions thumb) →
  addToIndex (addToIndex conversion thumb) thumb'
  = addToIndex conversion thumb'.
Proof.
  intros Hroute Hkey. unfold addToIndex, set_index; cbn.
  rewrite Hroute, Hkey, lookup_insert_eq.
  by rewrite !insert_insert_eq.
Qed.

(** X3.  Two calls of [addToIndex] for thumbnails that differ in the route
    or in the rendered dimensions give the same index in either order. *)
Theorem addToIndex_commute conversion thumb thumb' :
  ¬ (Route thumb' = Route thumb
     ∧ ThumbDimension_String (Dimensions thumb')
       = ThumbDimension_String (Dimensions thumb)) →
  addToIndex (addToIndex conversion thumb) thumb'
  = addToIndex (addToIndex conversion thumb') thumb.
Proof.
  intros Hslot. unfold addToIndex, set_index; cbn. f_equal.
  destruct (decide (Route thumb' = Route thumb)) as [Hroute | Hroute].
  - rewrite Hroute, !lookup_insert_eq, !insert_insert_eq.
    f_equal. apply insert_insert_ne. naive_solver.
  - rewrite !lookup_insert_ne by done.
    by apply insert_insert_ne.
Qed.

Lemma recordCount_insert (i : gmap string (gmap string Thumb)) route thumbs :
  recordCount (<[route := thumbs]> i)
  = size thumbs + recordCount (delete route i).
Proof.
  unfold recordCount. rewrite <- insert_delete_eq.
  by rewrite (map_fold_insert_L
                (λ _ (thumbs : gmap string Thumb) n, size thumbs + n));
    [| intros; lia | apply lookup_delete_eq].
Qed.

Lemma recordCount_lookup (i : gmap string (gmap string Thumb)) route :
  recordCount i
  = size (default ∅ (i !! route)) + recordCount (delete route i).
Proof.
  destruct (i !! route) as [thumbs |] eqn:Hroute; cbn.
  - unfold recordCount.
    by apply (map_fold_delete_L
                (λ _ (thumbs : gmap string Thumb) n, size thumbs + n)
                0 route thumbs i); [intros; lia |].
  - by rewrite delete_id.
Qed.

Lemma recordCount_addToIndex conversion thumb :
  recordCount (index (addToIndex conversion thumb))
  = if isInIndex conversion thumb
    then recordCount (index conversion)
    else S (recordCount (index conversion)).
Proof.
  unfold addToIndex, isInIndex; cbn.
  rewrite recordCount_insert, (recordCount_lookup (index conversion) (Route thumb)).
  rewrite map_size_insert.
  destruct (index conversion !! Route thumb) as [thumbs |]; cbn.
  - by destruct (thumbs !! _).
  - by rewrite lookup_empty.
Qed.

(** X4.  [addToIndex] adds exactly one record to the index when the
    thumbnail was not in it, and keeps the number of records when it was. *)
Theorem addToIndex_recordCount conversion thumb :
  (isInIndex conversion thumb = false →
   recordCount (index (addToIndex conversion thumb))
   = S (recordCount (index conversion)))
  ∧ (isInIndex conversion thumb = true →
     recordCount (index (addToIndex conversion thumb))
     = recordCount (index conversion)).
Proof.
  rewrite recordCount_addToIndex. split; intros Hin; by rewrite Hin.
Qed.


(** * More on calls and passes *)

Lemma resizedOk_app events events' :
  resizedOk (events ++ events') = resizedOk events + resizedOk events'.
Proof.
  induction events as [| [| | ? ? []| |] events IH]; cbn; by rewrite ?IH.
Qed.

Lemma openedOk_app events events' :
  openedOk (events ++ events') = openedOk events + openedOk events'.
Proof.
  induction events as [| [| ? ? ? []| | |] events IH]; cbn; by rewrite ?IH.
Qed.

Lemma closedTargets_app events events' :
  closedTargets (events ++ events')
  = closedTargets events + closedTargets events'.
Proof. induction events as [| [] events IH]; cbn; by rewrite ?IH. Qed.

Lemma openCalls_app events events' :
  openCalls (events ++ events') = openCalls events + openCalls events'.
Proof. induction events as [| [] events IH]; cbn; by rewrite ?IH. Qed.

Lemma schedule_filesOf repository :
  schedule repository = filesOf repository ≫= fileSchedule.
Proof.
  unfold schedule, filesOf.
  induction (dataaccess.Items repository) as [| item items IH]; [done |].
  cbn. by rewrite bind_app, IH.
Qed.

Lemma elem_of_schedule step repository :
  step ∈ schedule repository
  ↔ ∃ file, file ∈ filesOf repository ∧ step ∈ fileSchedule file.
Proof.
  rewrite schedule_filesOf, list_elem_of_bind.
  split; intros (file & ? & ?); eauto.
Qed.

(** Splits a call of [createThumbnail] into the ways through its body. *)
Ltac thumbnail_paths :=
  unfold createThumbnail, convert, returns, panics;
  repeat case_match; simplify_eq;
  cbn [oExit oConversion oDisk oEvents app] in *.

Section Coverage.

Variable env : Collaborators.

(** A record of the index and a call that finds the thumbnail absent. *)
Lemma lookupThumb_not_in_index conversion thumb t :
  isInIndex conversion thumb = false →
  lookupThumb (index conversion) (Route thumb)
    (ThumbDimension_String (Dimensions thumb)) = Some t →
  False.
Proof.
  intros Hnew Hlook.
  by rewrite (proj2 (isInIndex_true conversion thumb) (mk_is_Some _ _ Hlook))
    in Hnew.
Qed.

Lemma createThumbnail_kept conversion0 disk0 file maxWidth maxHeight :
  preserves (kept conversion0 disk0) (λ _, True)
    (createThumbnail env file maxWidth maxHeight).
Proof.
  intros conversion disk (Hrecords & Hrepo & Hrun & Hpath & Hfolder & Hdisk).
  thumbnail_paths.
  all: split; [| by repeat constructor].
  all: split_and!; try done; try set_solver.
  intros route key t Hlook%Hrecords.
  rewrite lookupThumb_addToIndex. case_decide as Hslot; [| done].
  destruct Hslot as [-> ->].
  by edestruct lookupThumb_not_in_index.
Qed.

(** X5.  A pass only adds: every record of the index is still there after
    the pass, at its route and dimension and with its content; the
    repository, the run flag, the path of the index file and the thumbnail
    folder of the service are as before; and every file of the folder is
    still there.  This holds however the pass ends. *)
Theorem pass_append_only conversion disk :
  (∀ route key t,
     lookupThumb (index conversion) route key = Some t →
     lookupThumb (index (oConversion (createThumbnails env conversion disk)))
       route key = Some t)
  ∧ repository (oConversion (createThumbnails env conversion disk))
    = repository conversion
  ∧ isRunning (oConversion (createThumbnails env conversion disk))
    = isRunning conversion
  ∧ indexFilePath (oConversion (createThumbnails env conversion disk))
    = indexFilePath conversion
  ∧ thumbnailFolder (oConversion (createThumbnails env conversion disk))
    = thumbnailFolder conversion
  ∧ disk ⊆ oDisk (createThumbnails env conversion disk).
Proof.
  apply (preserves_createThumbnails env (kept conversion disk) (λ _, True)).
  - intros. apply createThumbnail_kept.
  - done.
  - by split_and!.
Qed.

(** X6.  The number of records of the index after a pass is the number
    before it plus the number of calls of [Resize] that returned nil during
    the pass, however the pass ends. *)
Theorem pass_recordCount conversion disk :
  recordCount (index (oConversion (createThumbnails env conversion disk)))
  = recordCount (index conversion)
    + resizedOk (oEvents (createThumbnails env conversion disk)).
Proof.
  apply (keeps_createThumbnails env
           (λ c _ events,
              recordCount (index c)
              = recordCount (index conversion) + resizedOk events))
    with (events := []); [| | cbn; lia].
  - intros file maxWidth maxHeight c d events Hcount.
    thumbnail_paths; rewrite resizedOk_app, ?recordCount_addToIndex;
      repeat match goal with
        | H : isInIndex _ _ = false |- _ => rewrite H
        end;
      cbn [resizedOk]; lia.
  - intros seconds c d events Hcount. rewrite resizedOk_app; cbn. lia.
Qed.

(** X7.  Every record that a pass adds to the index has its file in the
    thumbnail folder when the pass ends: a record of the index after the
    pass was there before, or the file of its path is in the folder. *)
Theorem pass_records_have_files conversion disk :
  ∀ route key t,
    lookupThumb (index (oConversion (createThumbnails env conversion disk)))
      route key = Some t →
    lookupThumb (index conversion) route key = Some t
    ∨ Join env (thumbnailFolder conversion) (Path t)
        ∈ oDisk (createThumbnails env conversion disk).
Proof.
  apply (preserves_createThumbnails env
           (λ c d,
              thumbnailFolder c = thumbnailFolder conversion
              ∧ ∀ route key t,
                  lookupThumb (index c) route key = Some t →
                  lookupThumb (index conversion) route key = Some t
                  ∨ Join env (thumbnailFolder conversion) (Path t) ∈ d)
           (λ _, True)); [| done | by split; [| left]].
  intros file maxWidth maxHeight c d [Hfolder Hrecords].
  thumbnail_paths.
  all: split; [| by repeat constructor].
  all: split; [done |].
  all: try done.
  - intros route key t [? | ?]%Hrecords; [by left | right]. set_solver.
  - intros route key t. rewrite lookupThumb_addToIndex.
    case_decide; intros Hlook.
    + simplify_eq. right. rewrite <- Hfolder.
      apply elem_of_union. left. by apply elem_of_singleton.
    + destruct (Hrecords _ _ _ Hlook); [by left | right]. set_solver.
  - intros route key t [? | ?]%Hrecords; [by left | right]. set_solver.
Qed.

Lemma pass_closes_targets_aux conversion disk :
  closedTargets (oEvents (createThumbnails env conversion disk))
  = openedOk (oEvents (createThumbnails env conversion disk))
  ∧ (resizeInvocations (oEvents (createThumbnails env conversion disk))
     ≤ openedOk (oEvents (createThumbnails env conversion disk)))%nat.
Proof.
  apply (keeps_createThumbnails env
           (λ _ _ events,
              closedTargets events = openedOk events
              ∧ (resizeInvocations events ≤ openedOk events)%nat))
    with (events := []); [| | by cbn].
  - intros file maxWidth maxHeight c d events [Hclosed Hresized].
    rewrite closedTargets_app, openedOk_app, resizeInvocations_app.
    thumbnail_paths; cbn; lia.
  - intros seconds c d events [Hclosed Hresized].
    rewrite closedTargets_app, openedOk_app, resizeInvocations_app. cbn. lia.
Qed.



Lemma createThumbnail_openCalls file maxWidth maxHeight conversion disk :
  (openCalls (oEvents (createThumbnail env file maxWidth maxHeight
                         conversion disk)) ≤ 1)%nat.
Proof. thumbnail_paths; cbn; lia. Qed.

Lemma forRange_openCalls steps conversion disk :
  (openCalls (oEvents (forRange steps (perform env) conversion disk))
   + length (omap stepSleep steps) ≤ length steps)%nat.
Proof.
  revert conversion disk.
  induction steps as [| step steps IH]; intros conversion disk; [done |].
  cbn [forRange]. unfold andThen.
  assert (openCalls (oEvents (perform env step conversion disk))
          + length (omap stepSleep [step]) ≤ 1)%nat as Hstep.
  { destruct step; cbn; [| lia].
    pose proof (createThumbnail_openCalls file maxWidth maxHeight
                  conversion disk). lia. }
  assert (length (omap stepSleep steps) ≤ length steps)%nat as Hsleeps.
  { clear. induction steps as [| [] steps IH]; cbn; lia. }
  change (step :: steps) with ([step] ++ steps).
  rewrite omap_app, !length_app.
  destruct (oExit (perform env step conversion disk)); cbn in *.
  - rewrite openCalls_app.
    specialize (IH (oConversion (perform env step conversion disk))
                  (oDisk (perform env step conversion disk))). lia.
  - lia.
Qed.

Lemma length_schedule repository :
  length (schedule repository) = 4 * length (filesOf repository).
Proof.
  rewrite schedule_filesOf.
  induction (filesOf repository) as [| file files IH]; [done |].
  cbn in *. lia.
Qed.

Lemma createThumbnail_callsFor file f maxWidth maxHeight conversion disk :
  (openCallsFor file
     (oEvents (createThumbnail env f maxWidth maxHeight conversion disk))
   ≤ if bool_decide (f = file) then 1 else 0)%nat
  ∧ (resizesFor file
       (oEvents (createThumbnail env f maxWidth maxHeight conversion disk))
     ≤ if bool_decide (f = file) then 1 else 0)%nat.
Proof. thumbnail_paths; cbn; case_bool_decide; lia. Qed.

Lemma openCallsFor_app file events events' :
  openCallsFor file (events ++ events')
  = openCallsFor file events + openCallsFor file events'.
Proof.
  induction events as [| [] events IH]; cbn; rewrite ?IH; lia.
Qed.

Lemma resizesFor_app file events events' :
  resizesFor file (events ++ events')
  = resizesFor file events + resizesFor file events'.
Proof.
  induction events as [| [] events IH]; cbn; rewrite ?IH; lia.
Qed.

(** The calls of a run of steps on behalf of one file: at most one
    [OpenFile] and one [Resize] for each call of [createThumbnail] on it. *)
Lemma forRange_callsFor file steps conversion disk :
  (openCallsFor file
     (oEvents (forRange steps (perform env) conversion disk))
   ≤ length (filter (λ step, stepFor file step) steps))%nat
  ∧ (resizesFor file
       (oEvents (forRange steps (perform env) conversion disk))
     ≤ length (filter (λ step, stepFor file step) steps))%nat.
Proof.
  revert conversion disk.
  induction steps as [| step steps IH]; intros conversion disk;
    [by cbn |].
  cbn [forRange]. unfold andThen.
  assert ((openCallsFor file (oEvents (perform env step conversion disk))
           ≤ length (filter (λ step, stepFor file step)
                       [step]))%nat
          ∧ (resizesFor file (oEvents (perform env step conversion disk))
             ≤ length (filter (λ step, stepFor file step)
                         [step]))%nat) as [Hopen Hresize].
  { destruct step as [f w h | seconds]; cbn [perform].
    - pose proof (createThumbnail_callsFor file f w h conversion disk)
        as [Hopen Hresize].
      case_bool_decide as Hfile.
      + subst f. rewrite filter_cons, filter_nil. cbn [stepFor].
        rewrite bool_decide_eq_true_2 by done.
        case_decide; cbn in *; [lia | tauto].
      + lia.
    - cbn. lia. }
  change (step :: steps) with ([step] ++ steps).
  rewrite filter_app, length_app.
  destruct (oExit (perform env step conversion disk));
    cbn [oEvents]; [| lia].
  rewrite openCallsFor_app, resizesFor_app.
  destruct (IH (oConversion (perform env step conversion disk))
              (oDisk (perform env step conversion disk))). lia.
Qed.

Lemma schedule_callsFor file files :
  length (filter (λ step, stepFor file step)
            (files ≫= fileSchedule))
  = 3 * occurrences file files.
Proof.
  unfold occurrences.
  induction files as [| f files IH]; [done |].
  rewrite bind_cons, filter_app, length_app, IH.
  destruct (decide (f = file)) as [-> | Hother].
  - rewrite (filter_cons_True (λ f', f' = file) file files) by done.
    unfold fileSchedule. rewrite !filter_cons, filter_nil. cbn [stepFor].
    rewrite bool_decide_eq_true_2 by done.
    repeat case_decide; cbn in *; try tauto; lia.
  - rewrite (filter_cons_False (λ f', f' = file) f files) by done.
    unfold fileSchedule. rewrite !filter_cons, filter_nil. cbn [stepFor].
    rewrite bool_decide_eq_false_2 by done.
    repeat case_decide; cbn in *; try tauto; lia.
Qed.

(** X9.  For each file, a pass calls [OpenFile] on its behalf at most three
    times for each time the repository lists the file, and it calls
    [Resize] on its behalf at most as often; over all files, the pass calls
    each of the two at most three times the number of files listed. *)
Theorem pass_at_most_three_per_file conversion disk :
  (∀ file,
     (openCallsFor file (oEvents (createThumbnails env conversion disk))
      ≤ 3 * occurrences file (filesOf (repository conversion)))%nat
     ∧ (resizesFor file (oEvents (createThumbnails env conversion disk))
        ≤ 3 * occurrences file (filesOf (repository conversion)))%nat)
  ∧ (openCalls (oEvents (createThumbnails env conversion disk))
     ≤ 3 * length (filesOf (repository conversion)))%nat
  ∧ (resizeInvocations (oEvents (createThumbnails env conversion disk))
     ≤ 3 * length (filesOf (repository conversion)))%nat.
Proof.
  split.
  { intros file. rewrite createThumbnails_schedule.
    rewrite <- schedule_callsFor, <- schedule_filesOf.
    apply forRange_callsFor. }
  assert (∀ events, openedOk events ≤ openCalls events)%nat as Hopened.
  { induction events as [| [| ? ? ? []| | |] events IH]; cbn; lia. }
  pose proof (proj2 (pass_closes_targets_aux conversion disk)) as Hresized.
  specialize (Hopened (oEvents (createThumbnails env conversion disk))).
  rewrite createThumbnails_schedule in *.
  pose proof (forRange_openCalls (schedule (repository conversion))
                conversion disk) as Hcalls.
  rewrite schedule_sleeps, length_fmap, length_schedule in Hcalls.
  fold (filesOf (repository conversion)) in Hcalls. lia.
Qed.

(** X10.  After a pass that returned, every file of the repository with a
    supported media type and a full route has a record in the index at each
    of the widths 200, 400 and 800, unless the target of that thumbnail
    cannot be opened. *)
Theorem pass_returns_complete conversion disk file mimeType fullFileRoute
    maxWidth :
  oExit (createThumbnails env conversion disk) = Returns →
  file ∈ filesOf (repository conversion) →
  dataaccess.MimeType file = Ok mimeType →
  MimeTypeIsSupported env mimeType = true →
  Combine env (dataaccess.Parent file) (dataaccess.Route file)
  = Ok fullFileRoute →
  maxWidth ∈ [200%N; 400%N; 800%N] →
  let filename :=
    Sprintf_filename (dataaccess.Id file) maxWidth 0
      (GetFileExtensionFromMimeType env mimeType) in
  isInIndex (oConversion (createThumbnails env conversion disk))
    (newThumb fullFileRoute filename maxWidth 0) = true
  ∨ OpenFile env (Join env (thumbnailFolder conversion) filename) = false.
Proof.
  intros Hexit Hfile Hmime Hsupported Hroute Hwidth.
  assert (DoThumbnail file maxWidth 0 ∈ schedule (repository conversion))
    as Hstep.
  { apply elem_of_schedule. exists file. split; [done |].
    unfold fileSchedule.
    decompose_list_elem_of; subst; [left | right; left | right; right; left]. }
  intros filename.
  destruct (createThumbnails_grows env conversion disk)
    as [(_ & Hfolder & _) _].
  rewrite createThumbnails_schedule in *.
  pose proof (forRange_returns_settled env _ _ _ Hexit _ Hstep) as Hsettled.
  cbn in Hsettled. unfold settled in Hsettled.
  rewrite Hmime, Hsupported, Hroute, Hfolder in Hsettled. cbn in Hsettled.
  fold filename in Hsettled.
  apply orb_true_iff in Hsettled as [Hin | Hclosed%negb_true_iff];
    [by left | by right].
Qed.



(** X12.  A pass over a repository without files, whether it has no items
    or items without files, returns at once: no call of a collaborator, no
    line in the log, no sleep, and the service and the folder as they
    were. *)
Theorem pass_over_no_files conversion disk :
  filesOf (repository conversion) = [] →
  createThumbnails env conversion disk = returns [] conversion disk.
Proof.
  intros Hnone.
  by rewrite createThumbnails_schedule, schedule_filesOf, Hnone.
Qed.

(** X13.  After a call of [createThumbnail] that returned, the same call
    again returns as well, with the service and the folder as the first call
    left them, and without a call of [Resize]. *)
Theorem createThumbnail_again file maxWidth maxHeight conversion disk :
  oExit (createThumbnail env file maxWidth maxHeight conversion disk)
  = Returns →
  let o := createThumbnail env file maxWidth maxHeight conversion disk in
  ∃ events,
    createThumbnail env file maxWidth maxHeight (oConversion o) (oDisk o)
    = returns events (oConversion o) (oDisk o)
    ∧ resizeInvocations events = 0.
Proof.
  intros Hexit o. apply settled_quiet.
  by apply createThumbnail_returns_settled.
Qed.

End Coverage.

(** * More on names *)

Lemma string_app_cons x (a b : string) :
  String x a +:+ b = String x (a +:+ b).
Proof. reflexivity. Qed.

Lemma string_app_nil (b : string) : EmptyString +:+ b = b.
Proof. reflexivity. Qed.

Lemma string_app_assoc (a b c : string) : (a +:+ b) +:+ c = a +:+ (b +:+ c).
Proof.
  induction a as [| x a IH]; [done |].
  by rewrite !string_app_cons, IH.
Qed.

Lemma string_length_app (a b : string) :
  String.length (a +:+ b) = String.length a + String.length b.
Proof.
  induction a as [| x a IH]; [done |].
  rewrite string_app_cons. cbn. by rewrite IH.
Qed.

Lemma string_app_inv_tail (a b t : string) : a +:+ t = b +:+ t → a = b.
Proof.
  revert b. induction a as [| x a IH]; intros [| y b] Heq.
  - done.
  - apply (f_equal String.length) in Heq.
    rewrite string_app_nil, string_app_cons in Heq. cbn in Heq.
    rewrite string_length_app in Heq. lia.
  - apply (f_equal String.length) in Heq.
    rewrite string_app_nil, string_app_cons in Heq. cbn in Heq.
    rewrite string_length_app in Heq. lia.
  - rewrite !string_app_cons in Heq.
    injection Heq as -> Heq. f_equal. by apply IH.
Qed.

Lemma occurs_app c (a b : string) : occurs c b → occurs c (a +:+ b).
Proof.
  induction a as [| x a IH]; [done |].
  rewrite string_app_cons. cbn. by right; auto.
Qed.

(** A string is split in one way only at the last occurrence of a
    character. *)
Lemma string_split_last c (l l' r r' : string) :
  ¬ occurs c r → ¬ occurs c r' →
  l +:+ String c r = l' +:+ String c r' → l = l' ∧ r = r'.
Proof.
  intros Hr Hr'. revert l'.
  induction l as [| x l IH]; intros [| y l'] Heq;
    rewrite ?string_app_nil, ?string_app_cons in Heq.
  - by injection Heq as ->.
  - injection Heq as -> ->. destruct Hr. apply occurs_app. by left.
  - injection Heq as -> <-. destruct Hr'. apply occurs_app. by left.
  - injection Heq as -> Heq. destruct (IH _ Heq) as [-> ->]. done.
Qed.

Lemma pretty_N_go_no_dash x s :
  occurs dash (pretty_N_go x s) → occurs dash s.
Proof.
  revert s. induction (N.lt_wf_0 x) as [x _ IH]. intros s Hdash.
  destruct (decide (x = 0%N)) as [-> | Hpos].
  { by rewrite pretty_N_go_0 in Hdash. }
  rewrite pretty_N_go_step in Hdash by lia.
  apply IH in Hdash; [| apply N.div_lt; lia].
  destruct Hdash as [Hchar | Hdash]; [| done].
  unfold pretty_N_char in Hchar. by repeat case_match.
Qed.

Lemma pretty_N_no_dash (x : N) : ¬ occurs dash (pretty x).
Proof.
  unfold pretty, pretty_N. case_decide.
  - by intros [? | []].
  - by intros []%pretty_N_go_no_dash.
Qed.

(** X15.  For a given extension the file name tells the identifier of the
    file and the two bounds: two thumbnails get the same name only when the
    identifiers are the same and the bounds are the same.  So the three
    thumbnails of a file have three different names. *)
Theorem Sprintf_filename_inj id id' maxWidth maxWidth' maxHeight maxHeight'
    fileExtension :
  Sprintf_filename id maxWidth maxHeight fileExtension
  = Sprintf_filename id' maxWidth' maxHeight' fileExtension →
  id = id' ∧ maxWidth = maxWidth' ∧ maxHeight = maxHeight'.
Proof.
  unfold Sprintf_filename. intros Heq.
  assert (∀ i (w h : N),
            i +:+ "-" +:+ pretty w +:+ "-" +:+ pretty h +:+ "."
              +:+ fileExtension
            = ((i +:+ "-" +:+ pretty w) +:+ String dash (pretty h))
                +:+ "." +:+ fileExtension) as Hshape.
  { intros. by rewrite !string_app_assoc. }
  rewrite !Hshape in Heq. apply string_app_inv_tail in Heq.
  apply string_split_last in Heq as [Heq Hheight];
    [| apply pretty_N_no_dash..].
  apply (string_split_last dash id id') in Heq as [-> Hwidth];
    [| apply pretty_N_no_dash..].
  split_and!; [done | by apply (inj pretty) | by apply (inj pretty)].
Qed.

(** * More on the construction *)

(** X14.  [NewConversionService] starts the conversion and registers the
    two shutdown hooks, in this order and after its lines in the log, when
    it returns a service; when it returns nil it has done none of the three
    and has logged the warning about the thumbnail folder. *)
Theorem construction_effects env metaDataFolder repository :
  match NewConversionService env metaDataFolder repository with
  | (Some _, effects) =>
      ∃ logs,
        effects
        = logs ++ [StGo_startConversion; StRegister_stop; StRegister_saveIndex]
        ∧ ∀ e, e ∈ logs → ∃ level format, e = StLog level format
  | (None, effects) =>
      StLog Warn "Could not create the thumbnail folder %q" ∈ effects
      ∧ ∀ e, e ∈ effects → ∃ level format, e = StLog level format
  end.
Proof.
  unfold NewConversionService.
  destruct (loadIndex env _) as [loaded [err |]];
    destruct (CreateDirectory env _); cbn.
  - exists [StLog Debug "No thumbnail index loaded (%s). Creating a new one.";
            StLog Debug "Creating a thumbnail folder at %q."].
    split; [done |]. intros e He. decompose_list_elem_of; eauto.
  - split; [do 2 right; left |].
    intros e He. decompose_list_elem_of; eauto.
  - exists [StLog Debug "Creating a thumbnail folder at %q."].
    split; [done |]. intros e He. decompose_list_elem_of; eauto.
  - split; [right; left |].
    intros e He. decompose_list_elem_of; eauto.
Qed.

(** * The further theorems at work *)

(** The thumbnails of [Demo.photo] and of [Demo.damaged], added to an empty
    index in either order. *)
Lemma addToIndex_commute_witness :
  addToIndex (addToIndex (Demo.serviceOn []) Demo.photoThumb)
    Demo.damagedThumb
  = addToIndex (addToIndex (Demo.serviceOn []) Demo.damagedThumb)
      Demo.photoThumb.
Proof.
  apply (addToIndex_commute (Demo.serviceOn []) Demo.photoThumb
           Demo.damagedThumb).
  intros [Hroute _]. discriminate Hroute.
Defined.

(** A second record for the thumbnail of [Demo.photo], under another
    path. *)
Lemma addToIndex_overwrite_witness :
  let again := newThumb "gallery/photo.jpg" "again.jpg" 200 0 in
  addToIndex (addToIndex (Demo.serviceOn []) Demo.photoThumb) again
  = addToIndex (Demo.serviceOn []) again.
Proof.
  intros again.
  apply (addToIndex_overwrite (Demo.serviceOn []) Demo.photoThumb again);
    reflexivity.
Defined.

(** The record of [Demo.photo] at the width 200 after a pass, and its file. *)
Lemma pass_records_have_files_witness :
  let pass := createThumbnails Demo.env (Demo.serviceOn [Demo.photo]) ∅ in
  lookupThumb (index (oConversion pass)) "gallery/photo.jpg" "200x0"
  = Some Demo.photoThumb
  ∧ (lookupThumb (index (Demo.serviceOn [Demo.photo]))
       "gallery/photo.jpg" "200x0" = Some Demo.photoThumb
     ∨ "meta/thumbnails/abc123-200-0.jpg" ∈ oDisk pass).
Proof.
  intros pass.
  assert (lookupThumb (index (oConversion pass)) "gallery/photo.jpg" "200x0"
          = Some Demo.photoThumb) as Hrecord by (vm_compute; reflexivity).
  split; [exact Hrecord |].
  exact (pass_records_have_files Demo.env (Demo.serviceOn [Demo.photo]) ∅
           "gallery/photo.jpg" "200x0" Demo.photoThumb Hrecord).
Defined.

(** [Demo.locked] after a pass that returned: records at the widths 200 and
    800, and a target that cannot be opened at the width 400. *)
Lemma pass_returns_complete_witness :
  let pass := createThumbnails Demo.env (Demo.serviceOn [Demo.locked]) ∅ in
  oExit pass = Returns
  ∧ (isInIndex (oConversion pass)
       (newThumb "gallery/locked.jpg" "locked-400-0.jpg" 400 0) = true
     ∨ OpenFile Demo.env "meta/thumbnails/locked-400-0.jpg" = false)
  ∧ (isInIndex (oConversion pass)
       (newThumb "gallery/locked.jpg" "locked-800-0.jpg" 800 0) = true
     ∨ OpenFile Demo.env "meta/thumbnails/locked-800-0.jpg" = false).
Proof.
  intros pass.
  assert (oExit pass = Returns) as Hexit by (vm_compute; reflexivity).
  assert (Demo.locked ∈ filesOf (repository (Demo.serviceOn [Demo.locked])))
    as Hfile by left.
  split_and!; [exact Hexit | |].
  - apply (pass_returns_complete Demo.env (Demo.serviceOn [Demo.locked]) ∅
             Demo.locked "image/jpeg" "gallery/locked.jpg" 400 Hexit Hfile
             eq_refl eq_refl eq_refl).
    right. left.
  - apply (pass_returns_complete Demo.env (Demo.serviceOn [Demo.locked]) ∅
             Demo.locked "image/jpeg" "gallery/locked.jpg" 800 Hexit Hfile
             eq_refl eq_refl eq_refl).
    right. right. left.
Defined.


(** An item without files. *)
Lemma pass_over_no_files_witness :
  createThumbnails Demo.env (Demo.serviceOn []) ∅
  = returns [] (Demo.serviceOn []) ∅.
Proof.
  apply (pass_over_no_files Demo.env (Demo.serviceOn []) ∅). reflexivity.
Defined.

(** The call for [Demo.photo] at the width 200, twice. *)
Lemma createThumbnail_again_witness :
  let conversion := Demo.serviceOn [Demo.photo] in
  let o := createThumbnail Demo.env Demo.photo 200 0 conversion ∅ in
  oExit o = Returns
  ∧ ∃ events,
      createThumbnail Demo.env Demo.photo 200 0 (oConversion o) (oDisk o)
      = returns events (oConversion o) (oDisk o)
      ∧ resizeInvocations events = 0.
Proof.
  intros conversion o.
  assert (oExit o = Returns) as Hexit by (vm_compute; reflexivity).
  split; [exact Hexit |].
  exact (createThumbnail_again Demo.env Demo.photo 200 0 conversion ∅ Hexit).
Defined.

(** The names of the thumbnails of a file at the widths 200 and 400. *)
Lemma Sprintf_filename_inj_witness :
  Sprintf_filename "abc123" 200 0 "jpg" ≠ Sprintf_filename "abc123" 400 0 "jpg"
  ∧ Sprintf_filename "abc123" 200 0 "jpg" = "abc123-200-0.jpg".
Proof.
  split; [| reflexivity].
  intros Heq.
  apply (Sprintf_filename_inj "abc123" "abc123" 200 400 0 0 "jpg")
    in Heq as (_ & Hwidth & _).
  discriminate Hwidth.
Defined.

(** A pass that returned, over three files. *)
Lemma createThumbnails_returns_sleeps_witness :
  let conversion := Demo.serviceOn [Demo.photo; Demo.notes; Demo.locked] in
  oExit (createThumbnails Demo.env conversion ∅) = Returns
  ∧ sleepsOf (oEvents (createThumbnails Demo.env conversion ∅))
    = [5%N; 5%N; 5%N].
Proof.
  intros conversion.
  assert (oExit (createThumbnails Demo.env conversion ∅) = Returns) as Hexit
    by (vm_compute; reflexivity).
  split; [exact Hexit |].
  exact (createThumbnails_returns_sleeps Demo.env conversion ∅ Hexit).
Defined.

(** * More on what a pass calls *)

Section Guards.

Variable env : Collaborators.

Lemma createThumbnail_guarded conversion0 file maxWidth :
  file ∈ filesOf (repository conversion0) →
  maxWidth ∈ [200%N; 400%N; 800%N] →
  preserves (λ conversion _, extends conversion0 conversion)
    (λ e,
       match e with
       | EvOpenFile file thumb filePath ok =>
           guarded env conversion0 file thumb
           ∧ filePath = Join env (thumbnailFolder conversion0) (Path thumb)
           ∧ ok = OpenFile env filePath
       | EvResize file thumb ok =>
           guarded env conversion0 file thumb
           ∧ OpenFile env (Join env (thumbnailFolder conversion0) (Path thumb))
             = true
       | _ => True
       end)
    (createThumbnail env file maxWidth 0).
Proof.
  intros Hfile Hwidth conversion disk Hext.
  pose proof Hext as (_ & Hfolder & Hindex).
  assert (∀ mimeType fullFileRoute,
            dataaccess.MimeType file = Ok mimeType →
            negb (MimeTypeIsSupported env mimeType) = false →
            Combine env (dataaccess.Parent file) (dataaccess.Route file)
            = Ok fullFileRoute →
            isInIndex conversion
              (newThumb fullFileRoute
                 (Sprintf_filename (dataaccess.Id file) maxWidth 0
                    (GetFileExtensionFromMimeType env mimeType))
                 maxWidth 0) = false →
            guarded env conversion0 file
              (newThumb fullFileRoute
                 (Sprintf_filename (dataaccess.Id file) maxWidth 0
                    (GetFileExtensionFromMimeType env mimeType))
                 maxWidth 0)) as Hguard.
  { intros mimeType fullFileRoute Hmime Hsup%negb_false_iff Hroute Hnew.
    split; [done |]. exists mimeType, maxWidth. split_and!; try done.
    destruct (isInIndex conversion0 _) eqn:Hold; [| done].
    apply Hindex in Hold. congruence. }
  thumbnail_paths.
  all: split;
    [by eauto using extends_trans, extends_addToIndex |].
  all: repeat (apply Forall_cons; split); try apply Forall_nil; try done.
  all: rewrite <- ?Hfolder.
  all: split_and?.
  all: try by eapply Hguard.
  all: try done.
  all: try (symmetry; by apply negb_true_iff).
  all: try (symmetry; by apply negb_false_iff).
  all: by apply negb_false_iff.
Qed.

(** X18.  Every call of [OpenFile] and of [Resize] in a pass is made for a
    file of the repository whose media type is supported and whose full
    route could be combined, for its thumbnail of height 0 and width 200,
    400 or 800, which had no record in the index when the pass started; the
    target is the file of that name in the thumbnail folder, and [Resize]
    is only called when the target was opened. *)
Theorem pass_calls_guarded conversion disk e :
  e ∈ oEvents (createThumbnails env conversion disk) →
  match e with
  | EvOpenFile file thumb filePath ok =>
      guarded env conversion file thumb
      ∧ filePath = Join env (thumbnailFolder conversion) (Path thumb)
      ∧ ok = OpenFile env filePath
  | EvResize file thumb ok =>
      guarded env conversion file thumb
      ∧ OpenFile env (Join env (thumbnailFolder conversion) (Path thumb))
        = true
  | _ => True
  end.
Proof.
  revert e. apply Forall_forall.
  rewrite createThumbnails_schedule.
  apply (preserves_forRange (λ c _, extends conversion c)); [| apply extends_refl].
  intros step (file & Hfile & Hstep)%elem_of_schedule.
  unfold fileSchedule in Hstep. decompose_list_elem_of; subst; cbn.
  - apply createThumbnail_guarded; [done | left].
  - apply createThumbnail_guarded; [done | right; left].
  - apply createThumbnail_guarded; [done | right; right; left].
  - apply preserves_returns. by repeat constructor.
Qed.

Lemma wellFormed_addToIndex conversion thumb :
  wellFormed (index conversion) →
  wellFormed (index (addToIndex conversion thumb)).
Proof.
  intros Hwf route key t. rewrite lookupThumb_addToIndex.
  case_decide as Hslot; [| by apply Hwf].
  destruct Hslot as [-> ->]. by intros [= <-].
Qed.

(** X19.  In an index in which every record is filed under its own route
    and its own rendered dimensions, [addToIndex] keeps it so, and so does a
    pass, however it ends. *)
Theorem wellFormed_kept conversion disk thumb :
  wellFormed (index conversion) →
  wellFormed (index (addToIndex conversion thumb))
  ∧ wellFormed (index (oConversion (createThumbnails env conversion disk))).
Proof.
  intros Hwf. split; [by apply wellFormed_addToIndex |].
  apply (preserves_createThumbnails env
           (λ c _, wellFormed (index c)) (λ _, True)); [| done | done].
  intros file maxWidth maxHeight c d Hc.
  thumbnail_paths.
  all: split; [| by repeat constructor].
  all: auto using wellFormed_addToIndex.
Qed.

End Guards.

(** The calls of a pass over [Demo.photo]: the resize at the width 200. *)
Lemma pass_calls_guarded_witness :
  let conversion := Demo.serviceOn [Demo.photo] in
  EvResize Demo.photo Demo.photoThumb true
    ∈ oEvents (createThumbnails Demo.env conversion ∅)
  ∧ guarded Demo.env conversion Demo.photo Demo.photoThumb
  ∧ OpenFile Demo.env "meta/thumbnails/abc123-200-0.jpg" = true.
Proof.
  intros conversion.
  assert (EvResize Demo.photo Demo.photoThumb true
            ∈ oEvents (createThumbnails Demo.env conversion ∅)) as Hin.
  { vm_compute. right. left. }
  split; [exact Hin |].
  exact (pass_calls_guarded Demo.env conversion ∅ _ Hin).
Defined.

(** The empty index of a new service, after a record and after a pass. *)
Lemma wellFormed_kept_witness :
  let conversion := Demo.serviceOn [Demo.photo] in
  wellFormed (index conversion)
  ∧ wellFormed (index (addToIndex conversion Demo.photoThumb))
  ∧ wellFormed
      (index (oConversion (createThumbnails Demo.env conversion ∅))).
Proof.
  intros conversion.
  assert (wellFormed (index conversion)) as Hempty.
  { intros route key t Hlook. discriminate Hlook. }
  split; [exact Hempty |].
  exact (wellFormed_kept Demo.env conversion ∅ Demo.photoThumb Hempty).
Defined.

(** A file that the repository lists twice: four calls of [OpenFile] on
    behalf of [Demo.locked], whose target of width 400 does not open and is
    tried again at the second listing, within the bound of three for each
    listing. *)
Lemma pass_file_listed_twice :
  let events :=
    oEvents (createThumbnails Demo.env
               (Demo.serviceOn [Demo.locked; Demo.locked]) ∅) in
  openCallsFor Demo.locked events = 4
  ∧ resizesFor Demo.locked events = 2
  ∧ occurrences Demo.locked [Demo.locked; Demo.locked] = 2.
Proof. vm_compute. done. Qed.
